(** * Game of Life on a torus: a shallow embedding of [main.go]

    The development follows the Go source function by function.  The
    simulation state is the [GameOfLife] struct; its [field] is a Go
    [map[int]map[int]byte], modelled as a finite map of finite maps.  A
    read of a missing key yields the zero value, a write through a missing
    row is a run-time panic (assignment to an entry of a nil map), which
    the model renders as [None].  The terminal screen is an external
    object: the model keeps the list of calls made on it. *)

From Stdlib Require Import ZArith Lia List Bool Ascii.
From Stdlib.Strings Require Import Byte.
From stdpp Require Import base option list list_numbers gmap.

Local Open Scope Z_scope.

(** ** Machine integers and bytes *)

Module GoInt.

(** Go's [int] (and [time.Duration], an [int64]) on a 64-bit target:
    two's complement, arithmetic wraps around silently. *)
Definition min_int : Z := - 2 ^ 63.
Definition max_int : Z := 2 ^ 63 - 1.

Definition wrap (z : Z) : Z := (z + 2 ^ 63) mod 2 ^ 64 - 2 ^ 63.

Definition add (a b : Z) : Z := wrap (a + b).
Definition sub (a b : Z) : Z := wrap (a - b).

Definition in_range (z : Z) : Prop := min_int <= z <= max_int.

End GoInt.

Module GoByte.

Definition zero : byte := x00.
Definition one : byte := x01.

(** [int(b)] *)
Definition to_int (b : byte) : Z := Z.of_N (Byte.to_N b).

(** [a ^ b] on bytes; the exclusive or of two values below 256 is below
    256, so the fallback branch is never taken. *)
Definition xor (a b : byte) : byte :=
  match Byte.of_N (N.lxor (Byte.to_N a) (Byte.to_N b)) with
  | Some c => c
  | None => zero
  end.

Definition eqb (a b : byte) : bool := Byte.eqb a b.

End GoByte.

(** ** Loops *)

(** A [for] loop over the successive values of its counter.  The body
    yields the next loop state and whether the loop goes on ([Continue])
    or was left by a [break]; [None] is a panic inside the body. *)
Inductive ctl : Type := Continue | Break.

Fixpoint for_each {S B : Type} (body : S -> B -> option (S * ctl))
    (s : S) (l : list B) : option S :=
  match l with
  | [] => Some s
  | b :: l' =>
      match body s b with
      | None => None
      | Some (s', Break) => Some s'
      | Some (s', Continue) => for_each body s' l'
      end
  end.

(** ** The screen *)

(** Calls made on the [tcell.Screen]; [EmitStr] stands for one call of
    [emitStr] with the text of the status panel it prints. *)
Inductive StatusText : Type :=
  | TxtSize (w h : Z)
  | TxtState (playing : bool)
  | TxtGen (n : Z).

Inductive ScreenCall : Type :=
  | SetContent (x y : Z) (glyph : ascii)
  | EmitStr (x y : Z) (text : StatusText)
  | Fill
  | Show
  | Sync.

(** ** The game state *)

Record GameOfLife : Type := mkGame {
  width : Z;
  height : Z;
  evolution : bool;
  delay : Z;
  field : gmap Z (gmap Z byte);
  screen : list ScreenCall;
  stop : bool;
  generation : Z;
  stateWidth : Z
}.

Definition with_field (g : GameOfLife) (f : gmap Z (gmap Z byte)) : GameOfLife :=
  mkGame (width g) (height g) (evolution g) (delay g) f (screen g) (stop g)
         (generation g) (stateWidth g).

Definition with_screen (g : GameOfLife) (s : list ScreenCall) : GameOfLife :=
  mkGame (width g) (height g) (evolution g) (delay g) (field g) s (stop g)
         (generation g) (stateWidth g).

Definition with_evolution (g : GameOfLife) (e : bool) : GameOfLife :=
  mkGame (width g) (height g) e (delay g) (field g) (screen g) (stop g)
         (generation g) (stateWidth g).

Definition with_delay (g : GameOfLife) (d : Z) : GameOfLife :=
  mkGame (width g) (height g) (evolution g) d (field g) (screen g) (stop g)
         (generation g) (stateWidth g).

Definition with_generation (g : GameOfLife) (n : Z) : GameOfLife :=
  mkGame (width g) (height g) (evolution g) (delay g) (field g) (screen g) (stop g)
         n (stateWidth g).

Definition with_size (g : GameOfLife) (w h : Z) : GameOfLife :=
  mkGame w h (evolution g) (delay g) (field g) (screen g) (stop g)
         (generation g) (stateWidth g).

Definition with_stop (g : GameOfLife) (b : bool) : GameOfLife :=
  mkGame (width g) (height g) (evolution g) (delay g) (field g) (screen g) b
         (generation g) (stateWidth g).

Definition call (g : GameOfLife) (c : ScreenCall) : GameOfLife :=
  with_screen g (screen g ++ [c]).

(** ** Reading and writing [map[int]map[int]byte] *)

(** [m[y][x]] as an expression: a missing row is a nil map, a missing
    key reads as the zero byte. *)
Definition field_get (m : gmap Z (gmap Z byte)) (y x : Z) : byte :=
  match m !! y with
  | Some row => default GoByte.zero (row !! x)
  | None => GoByte.zero
  end.

(** [m[y][x] = v]: the row map is shared, so the write lands in [m];
    writing through a missing row panics. *)
Definition field_set (m : gmap Z (gmap Z byte)) (y x : Z) (v : byte)
    : option (gmap Z (gmap Z byte)) :=
  match m !! y with
  | Some row => Some (<[y := <[x := v]> row]> m)
  | None => None
  end.

(** ** The functions of [main.go] *)

(** The row loop [for i := 0; i < h; i++]. The capacity hints of [make]
    have no effect on the contents. *)
Definition makeNewMap (w h : Z) : gmap Z (gmap Z byte) :=
  foldl (fun m i => <[i := (∅ : gmap Z byte)]> m) ∅ (seqZ 0 h).

(** [NewGame]: [sw], [sh] are what [screen.Size()] returns. *)
Definition NewGame (sw sh : Z) : GameOfLife :=
  let w := GoInt.sub sw 10 in
  mkGame w sh false 500 (makeNewMap w sh) [] false 0 10.

(** The two [if]/[else if] chains on [nx] and [ny]. *)
Definition wrap_index (n limit : Z) : Z :=
  if n <? 0 then GoInt.sub limit 1
  else if n =? limit then 0
  else n.

Definition neigbors (g : GameOfLife) (x y : Z) : Z :=
  foldl (fun acc i =>
    foldl (fun acc j =>
      let nx := wrap_index (GoInt.add x i) (width g) in
      let ny := wrap_index (GoInt.add y j) (height g) in
      GoInt.add acc (GoByte.to_int (field_get (field g) ny nx)))
      acc (seqZ (-1) 3))
    0 (seqZ (-1) 3).

Definition nextCellState (g : GameOfLife) (x y : Z) : byte :=
  let n := neigbors g x y in
  if n =? 3 then GoByte.one
  else if n =? 4 then field_get (field g) y x
  else GoByte.zero.

Definition drawCell (g : GameOfLife) (x y : Z) (state : byte) : GameOfLife :=
  if GoByte.eqb state GoByte.one
  then call g (SetContent (GoInt.add x (stateWidth g)) y "X"%char)
  else call g (SetContent (GoInt.add x (stateWidth g)) y " "%char).

(** [tick].  The loop state is the map under construction together with
    the game, whose [field] stays the old one until the loops are over.
    The column loop is [for x := 0; x <= game.width; x++]: it visits
    [0 .. width], [width] included.  (The counters are enumerated with
    [seqZ], which is the Go loop as long as the bound is below the
    largest [int].) *)
Definition tick_cell (y : Z) (s : gmap Z (gmap Z byte) * GameOfLife) (x : Z)
    : option (gmap Z (gmap Z byte) * GameOfLife * ctl) :=
  let '(nextMap, g) := s in
  match field_set nextMap y x (nextCellState g x y) with
  | None => None
  | Some nextMap' =>
      let g' :=
        if GoByte.eqb (field_get nextMap' y x) (field_get (field g) y x)
        then g
        else drawCell g x y (field_get nextMap' y x) in
      Some (nextMap', g', Continue)
  end.

Definition tick_row (s : gmap Z (gmap Z byte) * GameOfLife) (y : Z)
    : option (gmap Z (gmap Z byte) * GameOfLife * ctl) :=
  match for_each (tick_cell y) s (seqZ 0 (width (snd s) + 1)) with
  | None => None
  | Some s' => Some (s', Continue)
  end.

Definition tick (g : GameOfLife) : option GameOfLife :=
  let nextMap := makeNewMap (width g) (height g) in
  match for_each tick_row (nextMap, g) (seqZ 0 (height g)) with
  | None => None
  | Some (nextMap', g') =>
      Some (with_generation (with_field g' nextMap') (GoInt.add (generation g') 1))
  end.

(** [reverseCell]: [game.field[y][x] ^= 1], then the cell is drawn. *)
Definition reverseCell (g : GameOfLife) (x y : Z) : option GameOfLife :=
  match field_set (field g) y x (GoByte.xor (field_get (field g) y x) GoByte.one) with
  | None => None
  | Some f =>
      let g' := with_field g f in
      Some (drawCell g' x y (field_get (field g') y x))
  end.

Definition switchMode (g : GameOfLife) : GameOfLife :=
  if evolution g then with_evolution g false else with_evolution g true.

(** [drawState]: both loops run, every round blanks [(i, 0)]. *)
Definition drawState (g : GameOfLife) : GameOfLife :=
  let blank (g : GameOfLife) :=
    foldl (fun g i =>
      foldl (fun g (_ : Z) => call g (SetContent i 0 " "%char)) g (seqZ 0 3))
      g (seqZ 0 (stateWidth g + 1)) in
  let g1 := blank g in
  let g2 := call g1 (EmitStr 0 0 (TxtSize (width g1) (height g1))) in
  let g3 := call g2 (EmitStr 0 1 (TxtState (evolution g2))) in
  call g3 (EmitStr 0 2 (TxtGen (generation g3))).

Definition increaseDelay (g : GameOfLife) : GameOfLife :=
  with_delay g (GoInt.add (delay g) 50).

Definition decreaseDelay (g : GameOfLife) : GameOfLife :=
  let newDelay := GoInt.sub (delay g) 50 in
  let newDelay := if newDelay <? 0 then 0 else newDelay in
  with_delay g newDelay.

(** [resize].  The row loop leaves at the first [y >= game.height]; the
    column loop is [for x := 0; x <= w; x++] and tests [x >= game.width]
    after the copy. *)
Definition resize_cell (y : Z) (s : gmap Z (gmap Z byte) * GameOfLife) (x : Z)
    : option (gmap Z (gmap Z byte) * GameOfLife * ctl) :=
  let '(newField, g) := s in
  match field_set newField y x (field_get (field g) y x) with
  | None => None
  | Some newField' =>
      let g' :=
        if GoByte.eqb (field_get newField' y x) GoByte.one
        then drawCell g x y (field_get newField' y x)
        else g in
      Some (newField', g', if x >=? width g' then Break else Continue)
  end.

Definition resize_row (w : Z) (s : gmap Z (gmap Z byte) * GameOfLife) (y : Z)
    : option (gmap Z (gmap Z byte) * GameOfLife * ctl) :=
  if y >=? height (snd s) then Some (s, Break)
  else
    match for_each (resize_cell y) s (seqZ 0 (w + 1)) with
    | None => None
    | Some s' => Some (s', Continue)
    end.

Definition resize (g : GameOfLife) (w h : Z) : option GameOfLife :=
  let g := with_evolution g false in
  let w := GoInt.sub w (stateWidth g) in
  let g := call g Fill in
  let newField := makeNewMap w h in
  match for_each (resize_row w) (newField, g) (seqZ 0 h) with
  | None => None
  | Some (newField', g') => Some (with_field (with_size g' w h) newField')
  end.

(** ** The event loop of [Start] *)

(** [tcell] is an imported package; its constants are fixed by it:
    [Button1] is the first bit of the button mask. *)
Definition Button1 : Z := 1.

Inductive Key : Type :=
  | KeyEscape | KeyEnter | KeyLeft | KeyRight | KeyRune | KeyOther.

(** What [PollEvent] can deliver.  A resize carries what [screen.Size()]
    answers when the handler asks for it. *)
Inductive Event : Type :=
  | EventKey (k : Key) (r : ascii)
  | EventMouse (buttons x y : Z)
  | EventResize (w h : Z)
  | EventOther.

(** One round of the polling goroutine.  The result is the new state
    and whether the goroutine goes on; [None] is a panic. *)
Definition handleEvent (g : GameOfLife) (ev : Event) : option (GameOfLife * ctl) :=
  match ev with
  | EventKey k r =>
      match k with
      | KeyEscape | KeyEnter => Some (with_stop g true, Break)
      | KeyLeft => Some (decreaseDelay g, Continue)
      | KeyRight => Some (increaseDelay g, Continue)
      | KeyRune =>
          if Ascii.eqb r " "%char
          then Some (call (drawState (switchMode g)) Show, Continue)
          else if Ascii.eqb r "q"%char || Ascii.eqb r "Q"%char
          then Some (with_stop g true, Break)
          else Some (g, Continue)
      | KeyOther => Some (g, Continue)
      end
  | EventMouse buttons x y =>
      if negb (Z.land buttons Button1 =? 0) then
        if x >=? stateWidth g then
          match reverseCell g (GoInt.sub x (stateWidth g)) y with
          | None => None
          | Some g' => Some (call g' Show, Continue)
          end
        else Some (g, Continue)
      else Some (g, Continue)
  | EventResize w h =>
      match resize g w h with
      | None => None
      | Some g' => Some (call (drawState g') Sync, Continue)
      end
  | EventOther => Some (g, Continue)
  end.

(** One expiry of the timer in the main loop of [Start]. *)
Definition timerTick (g : GameOfLife) : option GameOfLife :=
  if evolution g then
    match tick g with
    | None => None
    | Some g' => Some (call (drawState g') Show)
    end
  else Some g.

(** ** The words of the specification *)

(** The state of a cell, [field[y][x]]. *)
Definition cell (g : GameOfLife) (x y : Z) : byte := field_get (field g) y x.

Definition in_grid (g : GameOfLife) (x y : Z) : Prop :=
  0 <= x < width g /\ 0 <= y < height g.

(** The eight offsets around a cell, and the nine of the full block. *)
Definition around : list (Z * Z) :=
  [(-1, -1); (-1, 0); (-1, 1); (0, -1); (0, 1); (1, -1); (1, 0); (1, 1)].

Definition block : list (Z * Z) :=
  [(-1, -1); (-1, 0); (-1, 1); (0, -1); (0, 0); (0, 1); (1, -1); (1, 0); (1, 1)].

(** Coordinates on the torus: indices taken modulo the dimensions. *)
Definition torus (g : GameOfLife) (x y : Z) (d : Z * Z) : Z * Z :=
  ((x + fst d) mod width g, (y + snd d) mod height g).

Definition sum_states (g : GameOfLife) (cs : list (Z * Z)) : Z :=
  foldr (fun c acc => GoByte.to_int (cell g (fst c) (snd c)) + acc) 0 cs.

(** The specification's [neighborCount]: the states of the 8 toroidal
    neighbours, the cell itself left out. *)
Definition neighborCount (g : GameOfLife) (x y : Z) : Z :=
  sum_states g (map (torus g x y) around).

(** The sum the code forms: the whole 3x3 block, the cell included. *)
Definition blockCount (g : GameOfLife) (x y : Z) : Z :=
  sum_states g (map (torus g x y) block).

(** The rule of the specification, on a count [n]. *)
Definition rule (g : GameOfLife) (x y : Z) (n : Z) : byte :=
  if n =? 3 then GoByte.one
  else if n =? 4 then cell g x y
  else GoByte.zero.

(** [nextState] as the specification words it: the rule on the count of
    the 8 neighbours. *)
Definition spec_nextState (g : GameOfLife) (x y : Z) : byte :=
  rule g x y (neighborCount g x y).

(** ** The loops of [tick] and [resize], summed up *)

(** The call [drawCell] makes for cell [(x, y)] in state [state]. *)
Definition draw_call (g : GameOfLife) (x y : Z) (state : byte) : ScreenCall :=
  SetContent (GoInt.add x (stateWidth g)) y
             (if GoByte.eqb state GoByte.one then "X"%char else " "%char).

(** What the column loop of [tick] leaves in row [y], and what it draws. *)
Definition tick_row_fill (g : GameOfLife) (y : Z) (row : gmap Z byte) : gmap Z byte :=
  foldl (fun r x => <[x := nextCellState g x y]> r) row (seqZ 0 (width g + 1)).

Definition tick_cell_draw (g : GameOfLife) (y x : Z) : list ScreenCall :=
  if GoByte.eqb (nextCellState g x y) (cell g x y) then []
  else [draw_call g x y (nextCellState g x y)].

Definition tick_field (g : GameOfLife) : gmap Z (gmap Z byte) :=
  foldl (fun m y => <[y := tick_row_fill g y (default ∅ (m !! y))]> m)
        (makeNewMap (width g) (height g)) (seqZ 0 (height g)).

Definition tick_draws (g : GameOfLife) : list ScreenCall :=
  flat_map (fun y => flat_map (tick_cell_draw g y) (seqZ 0 (width g + 1)))
           (seqZ 0 (height g)).

(** The counter values a loop with a trailing [if x >= W { break }]
    goes through, and those of a loop opening with [if y >= H { break }]. *)
Fixpoint upto (W : Z) (l : list Z) : list Z :=
  match l with
  | [] => []
  | x :: l' => if x >=? W then [x] else x :: upto W l'
  end.

Fixpoint before (H : Z) (l : list Z) : list Z :=
  match l with
  | [] => []
  | y :: l' => if y >=? H then [] else y :: before H l'
  end.

(** What [resize] copies into row [y] and what it draws on the way. *)
Definition copy_row (g : GameOfLife) (y : Z) (cols : list Z) (row : gmap Z byte)
    : gmap Z byte :=
  foldl (fun r x => <[x := cell g x y]> r) row cols.

Definition resize_cell_draw (g : GameOfLife) (y x : Z) : list ScreenCall :=
  if GoByte.eqb (cell g x y) GoByte.one then [draw_call g x y (cell g x y)] else [].

Definition resize_field (g : GameOfLife) (w h : Z) : gmap Z (gmap Z byte) :=
  foldl (fun m y =>
           <[y := copy_row g y (upto (width g) (seqZ 0 (w + 1))) (default ∅ (m !! y))]> m)
        (makeNewMap w h) (before (height g) (seqZ 0 h)).

Definition resize_draws (g : GameOfLife) (w h : Z) : list ScreenCall :=
  flat_map (fun y => flat_map (resize_cell_draw g y) (upto (width g) (seqZ 0 (w + 1))))
           (before (height g) (seqZ 0 h)).

(** The grid cells behind a list of screen calls: [drawCell] puts cell
    [(x, y)] at screen column [x + stateWidth]. *)
Definition cells_drawn (sw : Z) (calls : list ScreenCall) : list (Z * Z) :=
  flat_map (fun c => match c with
                     | SetContent sx y _ => [(GoInt.sub sx sw, y)]
                     | _ => []
                     end) calls.

(** The cells an operation leading from [g] to [g'] has drawn. *)
Definition drawn_by (g g' : GameOfLife) : list (Z * Z) :=
  cells_drawn (stateWidth g) (drop (length (screen g)) (screen g')).

(** ** Sequences of operations *)

Inductive Op : Type :=
  | OpTick
  | OpReverseCell (x y : Z)
  | OpResize (w h : Z)
  | OpSwitchMode
  | OpIncreaseDelay
  | OpDecreaseDelay.

Definition apply_op (g : GameOfLife) (op : Op) : option GameOfLife :=
  match op with
  | OpTick => tick g
  | OpReverseCell x y => reverseCell g x y
  | OpResize w h => resize g w h
  | OpSwitchMode => Some (switchMode g)
  | OpIncreaseDelay => Some (increaseDelay g)
  | OpDecreaseDelay => Some (decreaseDelay g)
  end.

(** The operations one after the other; a panic ends the program. *)
Fixpoint run (g : GameOfLife) (ops : list Op) : option GameOfLife :=
  match ops with
  | [] => Some g
  | op :: ops' =>
      match apply_op g op with
      | None => None
      | Some g' => run g' ops'
      end
  end.

Definition is_tick (op : Op) : bool :=
  match op with OpTick => true | _ => false end.

(** The number of [tick]s in a sequence. *)
Definition ticks (ops : list Op) : Z := Z.of_nat (length (filter is_tick ops)).

(** The two speed actions, named after what they do to the delay. *)
Inductive SpeedAction : Type := DelayUp | DelayDown.

Definition adjust (g : GameOfLife) (a : SpeedAction) : GameOfLife :=
  match a with
  | DelayUp => increaseDelay g
  | DelayDown => decreaseDelay g
  end.

(** ** Invariants of the field *)

(** Every row of the grid has its (non-nil) map: writes to cells of the
    grid cannot panic. *)
Definition rows_ok (g : GameOfLife) : Prop :=
  forall y, 0 <= y < height g -> is_Some (field g !! y).

(** Cells hold 0 or 1. *)
Definition binary (g : GameOfLife) : Prop :=
  forall x y, cell g x y = GoByte.zero \/ cell g x y = GoByte.one.

(** No entry is stored outside the grid. *)
Definition no_stray (g : GameOfLife) : Prop :=
  forall y row x, field g !! y = Some row -> is_Some (row !! x) -> in_grid g x y.

(** The domain invariant of the data model. *)
Definition grid_domain (g : GameOfLife) : Prop := rows_ok g /\ no_stray g.

(** ** Conway's rule *)

Definition alive (g : GameOfLife) (x y : Z) : bool :=
  GoByte.eqb (cell g x y) GoByte.one.

(** The 8 neighbours of a cell on the torus, and how many are alive. *)
Definition neighbours (g : GameOfLife) (x y : Z) : list (Z * Z) :=
  map (torus g x y) around.

Definition live_neighbours (g : GameOfLife) (x y : Z) : Z :=
  Z.of_nat (length (filter (fun c => alive g (fst c) (snd c) = true) (neighbours g x y))).

(** The standard rule: a live cell survives with 2 or 3 live neighbours,
    a dead cell is born with exactly 3. *)
Definition conway (g : GameOfLife) (x y : Z) : byte :=
  let n := live_neighbours g x y in
  if alive g x y
  then (if (n =? 2) || (n =? 3) then GoByte.one else GoByte.zero)
  else (if n =? 3 then GoByte.one else GoByte.zero).

(** All live cells of the grid, row by row. *)
Definition live_cells (g : GameOfLife) : list (Z * Z) :=
  flat_map (fun y => flat_map (fun x => if alive g x y then [(x, y)] else [])
                              (seqZ 0 (width g)))
           (seqZ 0 (height g)).

(** ** Games used as examples *)

(** Three live cells in a row in the middle of a 5x5 grid, set up by
    three clicks on a fresh game (terminal of 15 columns and 5 rows). *)
Definition blinker : GameOfLife :=
  default (NewGame 15 5)
          (run (NewGame 15 5) [OpReverseCell 1 2; OpReverseCell 2 2; OpReverseCell 3 2]).

(** A 4x4 game (terminal of 14 columns) with three live cells in its
    last column. *)
Definition column3 : GameOfLife :=
  default (NewGame 14 4)
          (run (NewGame 14 4) [OpReverseCell 3 0; OpReverseCell 3 1; OpReverseCell 3 2]).

(** The same game one [tick] later, and then resized for a terminal of
    16 columns. *)
Definition column3_ticked : GameOfLife := default column3 (tick column3).

Definition column3_resized : GameOfLife :=
  default column3_ticked (resize column3_ticked 16 4).

(** A 4x4 game with one live cell at (3, 3), by one click on a fresh
    game. *)
Definition corner : GameOfLife :=
  default (NewGame 14 4) (run (NewGame 14 4) [OpReverseCell 3 3]).

(** A 4x4 game with one live cell at (2, 0), shrunk to 2 columns
    (terminal of 12), and then widened to 4 columns again. *)
Definition shrunk : GameOfLife :=
  default (NewGame 14 4) (run (NewGame 14 4) [OpReverseCell 2 0; OpResize 12 4]).

Definition widened : GameOfLife := default shrunk (resize shrunk 14 4).

(** A 4x4 game with one live cell at (0, 0). *)
Definition origin : GameOfLife :=
  default (NewGame 14 4) (run (NewGame 14 4) [OpReverseCell 0 0]).

(** A session in two parts on a 4x4 game, with three [tick]s in all. *)
Definition session1 : list Op := [OpReverseCell 3 0; OpTick].

Definition session2 : list Op := [OpResize 16 4; OpTick; OpReverseCell 0 0; OpTick].

Definition after_session1 : GameOfLife :=
  default (NewGame 14 4) (run (NewGame 14 4) session1).

Definition after_session2 : GameOfLife :=
  default after_session1 (run after_session1 session2).

(** ** Further notions *)

(** The rows of the field are those of the grid, no more and no less. *)
Definition rows_exact (g : GameOfLife) : Prop :=
  forall y, is_Some (field g !! y) <-> 0 <= y < height g.

(** Two games of the same size whose grids hold the same cells. *)
Definition same_grid (g1 g2 : GameOfLife) : Prop :=
  width g1 = width g2 /\ height g1 = height g2 /\
  forall x y, 0 <= x < width g1 -> 0 <= y < height g1 -> cell g1 x y = cell g2 x y.

(** The calls of the two blanking loops of [drawState], and of its three
    [emitStr]. *)
Definition blank_calls (g : GameOfLife) : list ScreenCall :=
  flat_map (fun i => [SetContent i 0 " "%char; SetContent i 0 " "%char;
                      SetContent i 0 " "%char])
           (seqZ 0 (stateWidth g + 1)).

Definition status_calls (g : GameOfLife) : list ScreenCall :=
  [EmitStr 0 0 (TxtSize (width g) (height g));
   EmitStr 0 1 (TxtState (evolution g));
   EmitStr 0 2 (TxtGen (generation g))].

(** The keys that end the program. *)
Definition quit_key (k : Key) (r : ascii) : bool :=
  match k with
  | KeyEscape | KeyEnter => true
  | KeyRune => Ascii.eqb r "q"%char || Ascii.eqb r "Q"%char
  | _ => false
  end.

(** ** [emitStr] *)

(** One [SetContent] of [emitStr]: position, main rune and combining
    runes.  Runes are code points; the string is the list of runes that
    [range] yields. *)
Record CellWrite : Type := mkCellWrite {
  cw_x : Z;
  cw_y : Z;
  cw_rune : Z;
  cw_comb : list Z
}.

(** [emitStr]; [RuneWidth] is [runewidth.RuneWidth], a function of an
    imported package.  The state of the loop is the calls made so far and
    the column [x]. *)
Definition emitStr_rune (RuneWidth : Z -> Z) (y : Z) (s : list CellWrite * Z) (c : Z)
    : list CellWrite * Z :=
  let '(calls, x) := s in
  let w := RuneWidth c in
  if w =? 0
  then (calls ++ [mkCellWrite x y 32 [c]], GoInt.add x 1)
  else (calls ++ [mkCellWrite x y c []], GoInt.add x w).

Definition emitStr (RuneWidth : Z -> Z) (x y : Z) (str : list Z) : list CellWrite :=
  fst (foldl (emitStr_rune RuneWidth y) ([], x) str).

(** The number of [DelayUp] in a sequence of speed actions. *)
Fixpoint count_ups (acts : list SpeedAction) : Z :=
  match acts with
  | [] => 0
  | DelayUp :: acts' => 1 + count_ups acts'
  | DelayDown :: acts' => count_ups acts'
  end.

(** The coordinates the two loops of [tick] go through, in their order:
    row after row, the columns [0 .. width] of each. *)
Definition tick_coords (g : GameOfLife) : list (Z * Z) :=
  flat_map (fun y => map (fun x => (x, y)) (seqZ 0 (width g + 1))) (seqZ 0 (height g)).

(** What [emitStr] writes for one rune, and by how much it moves on. *)
Definition rune_cell (RuneWidth : Z -> Z) (c : Z) : Z * list Z :=
  if RuneWidth c =? 0 then (32, [c]) else (c, []).

Definition rune_step (RuneWidth : Z -> Z) (c : Z) : Z :=
  if RuneWidth c =? 0 then 1 else RuneWidth c.

(** The calls of [emitStr] from column [x] on, rune by rune. *)
Fixpoint emit_from (RuneWidth : Z -> Z) (x y : Z) (str : list Z) : list CellWrite :=
  match str with
  | [] => []
  | c :: str' =>
      mkCellWrite x y (fst (rune_cell RuneWidth c)) (snd (rune_cell RuneWidth c))
      :: emit_from RuneWidth (GoInt.add x (rune_step RuneWidth c)) y str'
  end.

(** * Properties *)

(** ** Integers and bytes *)

Lemma wrap_id z : GoInt.in_range z -> GoInt.wrap z = z.
Proof.
  unfold GoInt.in_range, GoInt.min_int, GoInt.max_int, GoInt.wrap. intros H.
  rewrite Z.mod_small; lia.
Qed.

Lemma wrap_in_range z : GoInt.in_range (GoInt.wrap z).
Proof.
  unfold GoInt.in_range, GoInt.min_int, GoInt.max_int, GoInt.wrap.
  pose proof (Z.mod_pos_bound (z + 2 ^ 63) (2 ^ 64)). lia.
Qed.

Lemma add_id a b : GoInt.in_range (a + b) -> GoInt.add a b = a + b.
Proof. apply wrap_id. Qed.

Lemma sub_id a b : GoInt.in_range (a - b) -> GoInt.sub a b = a - b.
Proof. apply wrap_id. Qed.

Lemma to_int_bounds b : 0 <= GoByte.to_int b <= 255.
Proof.
  unfold GoByte.to_int. pose proof (Byte.to_N_bounded b). lia.
Qed.

Lemma to_int_zero : GoByte.to_int GoByte.zero = 0.
Proof. reflexivity. Qed.

Lemma to_int_one : GoByte.to_int GoByte.one = 1.
Proof. reflexivity. Qed.

Lemma byte_eqb_eq a b : GoByte.eqb a b = true <-> a = b.
Proof.
  unfold GoByte.eqb. split; [apply Byte.byte_dec_bl | apply Byte.byte_dec_lb].
Qed.

Lemma byte_eqb_refl a : GoByte.eqb a a = true.
Proof. by apply byte_eqb_eq. Qed.

Lemma byte_eqb_neq a b : GoByte.eqb a b = false <-> a <> b.
Proof.
  rewrite <- byte_eqb_eq. destruct (GoByte.eqb a b); split; congruence.
Qed.

Lemma xor_one_involutive b : GoByte.xor (GoByte.xor b GoByte.one) GoByte.one = b.
Proof. destruct b; reflexivity. Qed.

Lemma xor_one_changes b : GoByte.xor b GoByte.one <> b.
Proof. destruct b; discriminate. Qed.

(** ** The neighbour sum *)

Lemma seqZ_offsets : seqZ (-1) 3 = [-1; 0; 1].
Proof. reflexivity. Qed.

Lemma wrap_index_mod n limit :
  0 < limit <= GoInt.max_int -> -1 <= n <= limit ->
  wrap_index n limit = n mod limit.
Proof.
  intros Hl Hn. unfold wrap_index.
  destruct (Z.ltb_spec n 0).
  - assert (n = -1) as -> by lia.
    rewrite sub_id by (unfold GoInt.in_range, GoInt.min_int, GoInt.max_int in *; lia).
    apply (Z.mod_unique (-1) limit (-1)); lia.
  - destruct (Z.eqb_spec n limit) as [-> | Hne].
    + by rewrite Z_mod_same_full.
    + rewrite Z.mod_small; lia.
Qed.

Ltac int_range :=
  unfold GoInt.in_range, GoInt.min_int, GoInt.max_int in *; lia.

Ltac bound_bytes :=
  repeat match goal with
  | |- context [GoByte.to_int ?b] =>
      let H := fresh "Hb" in
      pose proof (to_int_bounds b) as H;
      generalize dependent (GoByte.to_int b); intros
  end.

Ltac unwrap_adds :=
  repeat match goal with
  | |- context [GoInt.add ?a ?b] => rewrite (add_id a b) by int_range
  end.

(** On a cell of the grid the loops of [nextCellState] add up the nine
    cells of the toroidal 3x3 block. *)
Lemma neigbors_blockCount g x y :
  0 < width g <= GoInt.max_int -> 0 < height g <= GoInt.max_int ->
  in_grid g x y ->
  neigbors g x y = blockCount g x y.
Proof.
  intros Hw Hh [Hx Hy].
  unfold neigbors, blockCount, sum_states, torus, cell, block.
  rewrite seqZ_offsets. cbn [foldl foldr map fst snd].
  rewrite !(add_id x), !(add_id y) by int_range.
  rewrite !wrap_index_mod by lia.
  bound_bytes. unwrap_adds. lia.
Qed.

(** ** Maps of maps *)

Lemma field_get_set_eq (m m' : gmap Z (gmap Z byte)) y x v :
  field_set m y x v = Some m' -> field_get m' y x = v.
Proof.
  unfold field_set, field_get. destruct (m !! y) as [row|] eqn:E; [|done].
  intros [= <-]. by rewrite !lookup_insert_eq.
Qed.

Lemma field_get_set_ne (m m' : gmap Z (gmap Z byte)) y x v y' x' :
  field_set m y x v = Some m' -> (y', x') <> (y, x) ->
  field_get m' y' x' = field_get m y' x'.
Proof.
  unfold field_set, field_get. destruct (m !! y) as [row|] eqn:E; [|done].
  intros [= <-] Hne. destruct (decide (y' = y)) as [-> | Hy].
  - rewrite lookup_insert_eq, E. rewrite lookup_insert_ne; [done | congruence].
  - by rewrite lookup_insert_ne.
Qed.

Lemma field_get_insert (m : gmap Z (gmap Z byte)) y x v row :
  field_get (<[y := <[x := v]> row]> m) y x = v.
Proof. unfold field_get. by rewrite !lookup_insert_eq. Qed.

Lemma field_set_rows (m m' : gmap Z (gmap Z byte)) y x v y' :
  field_set m y x v = Some m' -> is_Some (m' !! y') <-> is_Some (m !! y').
Proof.
  unfold field_set. destruct (m !! y) as [row|] eqn:E; [|done].
  intros [= <-]. destruct (decide (y' = y)) as [-> | Hy].
  - rewrite lookup_insert_eq, E. split; eauto.
  - by rewrite lookup_insert_ne.
Qed.

Lemma field_set_total (m : gmap Z (gmap Z byte)) y x v :
  is_Some (m !! y) -> is_Some (field_set m y x v).
Proof. intros [row E]. unfold field_set. rewrite E. eauto. Qed.

(** A loop that stores [F i] under every [i] of a duplicate-free list. *)
Lemma lookup_foldl_insert {A} (F : Z -> option A -> A) (l : list Z) :
  NoDup l -> forall (m : gmap Z A) k,
  foldl (fun m i => <[i := F i (m !! i)]> m) m l !! k
  = if decide (k ∈ l) then Some (F k (m !! k)) else m !! k.
Proof.
  induction 1 as [| i l Hi Hnd IH]; intros m k; cbn [foldl].
  - by rewrite decide_False by set_solver.
  - rewrite IH. destruct (decide (k ∈ l)) as [Hk | Hk].
    + rewrite decide_True by set_solver.
      rewrite lookup_insert_ne; [done | set_solver].
    + destruct (decide (k = i)) as [-> | Hne].
      * rewrite decide_True by set_solver. by rewrite lookup_insert_eq.
      * rewrite decide_False by (rewrite elem_of_cons; tauto).
        by rewrite lookup_insert_ne.
Qed.

Lemma makeNewMap_lookup w h y :
  makeNewMap w h !! y = if decide (0 <= y < h) then Some ∅ else None.
Proof.
  unfold makeNewMap.
  rewrite (lookup_foldl_insert (fun _ _ => ∅) _ (NoDup_seqZ 0 h)).
  rewrite lookup_empty.
  destruct (decide (y ∈ seqZ 0 h)) as [Hy | Hy]; rewrite elem_of_seqZ in Hy;
    [rewrite decide_True by lia | rewrite decide_False by lia]; done.
Qed.

Lemma makeNewMap_get w h y x : field_get (makeNewMap w h) y x = GoByte.zero.
Proof.
  unfold field_get. rewrite makeNewMap_lookup. by case_decide.
Qed.

(** ** Drawing *)

Lemma drawCell_call g x y state :
  drawCell g x y state = call g (draw_call g x y state).
Proof. unfold drawCell, draw_call. by destruct (GoByte.eqb state GoByte.one). Qed.

Lemma with_screen_id g : with_screen g (screen g) = g.
Proof. by destruct g. Qed.

(** ** One generation *)

Lemma nextCellState_with_screen g s x y :
  nextCellState (with_screen g s) x y = nextCellState g x y.
Proof. unfold nextCellState, neigbors, with_screen. cbn [width height field]. done. Qed.

Lemma tick_cell_eq g y (m : gmap Z (gmap Z byte)) s row x :
  m !! y = Some row ->
  tick_cell y (m, with_screen g s) x
  = Some (<[y := <[x := nextCellState g x y]> row]> m,
          with_screen g (s ++ tick_cell_draw g y x), Continue).
Proof.
  intros Hrow. unfold tick_cell.
  destruct (field_set m y x (nextCellState (with_screen g s) x y)) as [m'|] eqn:E.
  - rewrite (field_get_set_eq _ _ _ _ _ E).
    rewrite nextCellState_with_screen in *.
    unfold field_set in E. rewrite Hrow in E. injection E as <-.
    unfold tick_cell_draw, cell. cbn [field with_screen].
    destruct (GoByte.eqb (nextCellState g x y) (field_get (field g) y x)).
    + by rewrite app_nil_r.
    + by rewrite drawCell_call.
  - unfold field_set in E. by rewrite Hrow in E.
Qed.

Lemma tick_cells_run g y l : forall (m : gmap Z (gmap Z byte)) s row,
  m !! y = Some row ->
  for_each (tick_cell y) (m, with_screen g s) l
  = Some (<[y := foldl (fun r x => <[x := nextCellState g x y]> r) row l]> m,
          with_screen g (s ++ flat_map (tick_cell_draw g y) l)).
Proof.
  induction l as [| x l IH]; intros m s row Hrow; cbn [for_each foldl flat_map].
  - by rewrite insert_id, app_nil_r.
  - rewrite (tick_cell_eq g y m s row x Hrow).
    rewrite (IH _ _ (<[x := nextCellState g x y]> row)) by apply lookup_insert_eq.
    by rewrite insert_insert_eq, <- app_assoc.
Qed.

Lemma tick_rows_run g l : forall (m : gmap Z (gmap Z byte)) s,
  (forall y, y ∈ l -> is_Some (m !! y)) ->
  for_each tick_row (m, with_screen g s) l
  = Some (foldl (fun m y => <[y := tick_row_fill g y (default ∅ (m !! y))]> m) m l,
          with_screen g
            (s ++ flat_map (fun y => flat_map (tick_cell_draw g y) (seqZ 0 (width g + 1))) l)).
Proof.
  induction l as [| y l IH]; intros m s Hrows; cbn [for_each foldl flat_map].
  - by rewrite app_nil_r.
  - destruct (Hrows y) as [row Hrow]; [set_solver|].
    unfold tick_row at 1. cbn [snd with_screen width].
    rewrite (tick_cells_run g y _ m s row Hrow).
    rewrite IH.
    + rewrite Hrow. cbn [default]. unfold tick_row_fill. by rewrite <- app_assoc.
    + intros y' Hy'. rewrite lookup_insert_is_Some'. right. apply Hrows. set_solver.
Qed.

(** [tick] never panics; this is the state it leaves. *)
Lemma tick_eq g :
  tick g = Some (mkGame (width g) (height g) (evolution g) (delay g)
                        (tick_field g) (screen g ++ tick_draws g) (stop g)
                        (GoInt.add (generation g) 1) (stateWidth g)).
Proof.
  assert (forall y, y ∈ seqZ 0 (height g) ->
            is_Some (makeNewMap (width g) (height g) !! y)) as Hrows.
  { intros y Hy. rewrite elem_of_seqZ in Hy. rewrite makeNewMap_lookup.
    rewrite decide_True by lia. eauto. }
  pose proof (tick_rows_run g _ _ (screen g) Hrows) as E.
  rewrite with_screen_id in E. unfold tick. rewrite E. reflexivity.
Qed.

Lemma tick_row_fill_lookup g y (row : gmap Z byte) x :
  tick_row_fill g y row !! x
  = if decide (0 <= x <= width g) then Some (nextCellState g x y) else row !! x.
Proof.
  unfold tick_row_fill.
  rewrite (lookup_foldl_insert (fun x _ => nextCellState g x y) _ (NoDup_seqZ _ _)).
  destruct (decide (x ∈ seqZ 0 (width g + 1))) as [Hx | Hx]; rewrite elem_of_seqZ in Hx;
    [rewrite decide_True by lia | rewrite decide_False by lia]; done.
Qed.

Lemma tick_field_lookup g y :
  tick_field g !! y
  = if decide (0 <= y < height g) then Some (tick_row_fill g y ∅) else None.
Proof.
  unfold tick_field.
  rewrite (lookup_foldl_insert (fun y o => tick_row_fill g y (default ∅ o)) _ (NoDup_seqZ _ _)).
  rewrite makeNewMap_lookup.
  destruct (decide (y ∈ seqZ 0 (height g))) as [Hy | Hy]; rewrite elem_of_seqZ in Hy;
    [rewrite !decide_True by lia | rewrite !decide_False by lia]; done.
Qed.

(** The cells of the map [tick] builds: the next state on columns
    [0 .. width] of the rows of the grid, nothing elsewhere. *)
Lemma tick_field_get g y x :
  field_get (tick_field g) y x
  = if decide (0 <= y < height g /\ 0 <= x <= width g)
    then nextCellState g x y else GoByte.zero.
Proof.
  unfold field_get. rewrite tick_field_lookup.
  destruct (decide (0 <= y < height g)) as [Hy | Hy].
  - rewrite tick_row_fill_lookup, lookup_empty.
    destruct (decide (0 <= x <= width g)) as [Hx | Hx];
      [rewrite decide_True by lia | rewrite decide_False by lia]; done.
  - by rewrite decide_False by lia.
Qed.

(** ** Resizing *)

Lemma elem_of_upto_seqZ W n : forall a x,
  x ∈ upto W (seqZ a (Z.of_nat n)) <-> a <= x < a + Z.of_nat n /\ x <= Z.max W a.
Proof.
  induction n as [| n IH]; intros a x.
  - rewrite seqZ_nil by lia. cbn [upto]. rewrite elem_of_nil. lia.
  - rewrite seqZ_cons by lia. cbn [upto].
    replace (Z.pred (Z.of_nat (S n))) with (Z.of_nat n) by lia.
    destruct (Z.geb_spec a W).
    + rewrite list_elem_of_singleton. lia.
    + rewrite elem_of_cons, IH. lia.
Qed.

Lemma elem_of_before_seqZ H n : forall a y,
  y ∈ before H (seqZ a (Z.of_nat n)) <-> a <= y < a + Z.of_nat n /\ y < H.
Proof.
  induction n as [| n IH]; intros a y.
  - rewrite seqZ_nil by lia. cbn [before]. rewrite elem_of_nil. lia.
  - rewrite seqZ_cons by lia. cbn [before].
    replace (Z.pred (Z.of_nat (S n))) with (Z.of_nat n) by lia.
    destruct (Z.geb_spec a H).
    + rewrite elem_of_nil. lia.
    + rewrite elem_of_cons, IH. lia.
Qed.

Lemma elem_of_upto W l x : x ∈ upto W l -> x ∈ l.
Proof.
  induction l as [| a l IH]; cbn [upto]; [done|].
  destruct (a >=? W); rewrite !elem_of_cons; [|tauto].
  rewrite elem_of_nil. tauto.
Qed.

Lemma elem_of_before H l y : y ∈ before H l -> y ∈ l.
Proof.
  induction l as [| a l IH]; cbn [before]; [done|].
  destruct (a >=? H); rewrite ?elem_of_cons; [|tauto].
  by rewrite elem_of_nil.
Qed.

Lemma NoDup_upto W l : NoDup l -> NoDup (upto W l).
Proof.
  induction 1 as [| a l Ha Hl IH]; cbn [upto]; [constructor|].
  destruct (a >=? W).
  - apply NoDup_singleton.
  - constructor; [|done]. intros Hin. by apply Ha, elem_of_upto with W.
Qed.

Lemma NoDup_before H l : NoDup l -> NoDup (before H l).
Proof.
  induction 1 as [| a l Ha Hl IH]; cbn [before]; [constructor|].
  destruct (a >=? H); [constructor|].
  constructor; [|done]. intros Hin. by apply Ha, elem_of_before with H.
Qed.

Lemma elem_of_copied_cols W w x :
  x ∈ upto W (seqZ 0 (w + 1)) <-> 0 <= x <= w /\ x <= Z.max W 0.
Proof.
  destruct (Z.le_gt_cases 0 (w + 1)).
  - rewrite <- (Z2Nat.id (w + 1)) at 1 by done. rewrite elem_of_upto_seqZ. lia.
  - rewrite seqZ_nil by lia. cbn [upto]. rewrite elem_of_nil. lia.
Qed.

Lemma elem_of_copied_rows H h y :
  y ∈ before H (seqZ 0 h) <-> 0 <= y < h /\ y < H.
Proof.
  destruct (Z.le_gt_cases 0 h).
  - rewrite <- (Z2Nat.id h) at 1 by done. rewrite elem_of_before_seqZ. lia.
  - rewrite seqZ_nil by lia. cbn [before]. rewrite elem_of_nil. lia.
Qed.

Lemma resize_cell_eq g y (m : gmap Z (gmap Z byte)) s row x :
  m !! y = Some row ->
  resize_cell y (m, with_screen g s) x
  = Some (<[y := <[x := cell g x y]> row]> m,
          with_screen g (s ++ resize_cell_draw g y x),
          if x >=? width g then Break else Continue).
Proof.
  intros Hrow. unfold resize_cell.
  destruct (field_set m y x (field_get (field (with_screen g s)) y x)) as [m'|] eqn:E.
  - rewrite (field_get_set_eq _ _ _ _ _ E).
    cbn [field with_screen] in *. fold (cell g x y) in *.
    unfold field_set in E. rewrite Hrow in E. injection E as <-.
    unfold resize_cell_draw.
    destruct (GoByte.eqb (cell g x y) GoByte.one).
    + by rewrite drawCell_call.
    + by rewrite app_nil_r.
  - unfold field_set in E. by rewrite Hrow in E.
Qed.

Lemma resize_cells_run g y l : forall (m : gmap Z (gmap Z byte)) s row,
  m !! y = Some row ->
  for_each (resize_cell y) (m, with_screen g s) l
  = Some (<[y := copy_row g y (upto (width g) l) row]> m,
          with_screen g (s ++ flat_map (resize_cell_draw g y) (upto (width g) l))).
Proof.
  unfold copy_row.
  induction l as [| x l IH]; intros m s row Hrow; cbn [for_each upto].
  - cbn [foldl flat_map]. by rewrite insert_id, app_nil_r.
  - rewrite (resize_cell_eq g y m s row x Hrow).
    destruct (x >=? width g); cbn [foldl flat_map].
    + by rewrite app_nil_r.
    + rewrite (IH _ _ (<[x := cell g x y]> row)) by apply lookup_insert_eq.
      by rewrite insert_insert_eq, <- app_assoc.
Qed.

Lemma resize_rows_run g w l : forall (m : gmap Z (gmap Z byte)) s,
  (forall y, y ∈ l -> is_Some (m !! y)) ->
  for_each (resize_row w) (m, with_screen g s) l
  = Some (foldl (fun m y =>
                   <[y := copy_row g y (upto (width g) (seqZ 0 (w + 1)))
                                   (default ∅ (m !! y))]> m)
                m (before (height g) l),
          with_screen g
            (s ++ flat_map (fun y => flat_map (resize_cell_draw g y)
                                       (upto (width g) (seqZ 0 (w + 1))))
                           (before (height g) l))).
Proof.
  induction l as [| y l IH]; intros m s Hrows; cbn [for_each before].
  - cbn [foldl flat_map]. by rewrite app_nil_r.
  - unfold resize_row at 1. cbn [snd with_screen height].
    destruct (y >=? height g); cbn [foldl flat_map].
    + by rewrite app_nil_r.
    + destruct (Hrows y) as [row Hrow]; [set_solver|].
      rewrite (resize_cells_run g y _ m s row Hrow).
      rewrite IH.
      * rewrite Hrow. cbn [default]. by rewrite <- app_assoc.
      * intros y' Hy'. rewrite lookup_insert_is_Some'. right. apply Hrows. set_solver.
Qed.

(** [resize] never panics; this is the state it leaves. *)
Lemma resize_eq g w h :
  let w' := GoInt.sub w (stateWidth g) in
  resize g w h
  = Some (mkGame w' h false (delay g) (resize_field g w' h)
                 (screen g ++ Fill :: resize_draws g w' h) (stop g)
                 (generation g) (stateWidth g)).
Proof.
  intros w'. unfold resize.
  set (g1 := with_evolution g false).
  change (stateWidth g1) with (stateWidth g). fold w'.
  assert (forall y, y ∈ seqZ 0 h -> is_Some (makeNewMap w' h !! y)) as Hrows.
  { intros y Hy. rewrite elem_of_seqZ in Hy. rewrite makeNewMap_lookup.
    rewrite decide_True by lia. eauto. }
  pose proof (resize_rows_run g1 w' _ _ (screen g ++ [Fill]) Hrows) as E.
  change (with_screen g1 (screen g ++ [Fill])) with (call g1 Fill) in E at 1.
  rewrite E. unfold resize_field, resize_draws, with_field, with_size.
  cbn [width height evolution delay field screen stop generation stateWidth
       with_screen].
  by rewrite <- app_assoc.
Qed.

Lemma copy_row_lookup g y W w (row : gmap Z byte) x :
  copy_row g y (upto W (seqZ 0 (w + 1))) row !! x
  = if decide (0 <= x <= w /\ x <= Z.max W 0) then Some (cell g x y) else row !! x.
Proof.
  unfold copy_row.
  rewrite (lookup_foldl_insert (fun x _ => cell g x y) _
             (NoDup_upto _ _ (NoDup_seqZ _ _))).
  destruct (decide (x ∈ upto W (seqZ 0 (w + 1)))) as [Hx | Hx];
    rewrite elem_of_copied_cols in Hx;
    [rewrite decide_True by lia | rewrite decide_False by lia]; done.
Qed.

Lemma resize_field_lookup g w h y :
  resize_field g w h !! y
  = if decide (0 <= y < h)
    then Some (if decide (y < height g)
               then copy_row g y (upto (width g) (seqZ 0 (w + 1))) ∅ else ∅)
    else None.
Proof.
  unfold resize_field.
  rewrite (lookup_foldl_insert
             (fun y o => copy_row g y (upto (width g) (seqZ 0 (w + 1))) (default ∅ o))
             _ (NoDup_before _ _ (NoDup_seqZ _ _))).
  rewrite makeNewMap_lookup.
  destruct (decide (y ∈ before (height g) (seqZ 0 h))) as [Hy | Hy];
    rewrite elem_of_copied_rows in Hy.
  - by rewrite !decide_True by lia.
  - destruct (decide (0 <= y < h)); [|done]. by rewrite decide_False by lia.
Qed.

(** The cells of the map [resize] builds: the old cell on the rows below
    both heights and the columns [0 .. min w (max width 0)], nothing
    elsewhere. *)
Lemma resize_field_get g w h y x :
  field_get (resize_field g w h) y x
  = if decide ((0 <= y < h /\ y < height g) /\ 0 <= x <= w /\ x <= Z.max (width g) 0)
    then cell g x y else GoByte.zero.
Proof.
  unfold field_get. rewrite resize_field_lookup.
  destruct (decide (0 <= y < h)) as [Hy | Hy]; [|by rewrite decide_False by lia].
  destruct (decide (y < height g)) as [Hy' | Hy'].
  - rewrite copy_row_lookup, lookup_empty.
    destruct (decide (0 <= x <= w /\ x <= Z.max (width g) 0));
      [rewrite decide_True by lia | rewrite decide_False by lia]; done.
  - rewrite lookup_empty. by rewrite decide_False by lia.
Qed.

(** ** Sequences of operations *)

Lemma run_app g ops1 ops2 :
  run g (ops1 ++ ops2) = match run g ops1 with
                         | Some g1 => run g1 ops2
                         | None => None
                         end.
Proof.
  revert g. induction ops1 as [| op ops1 IH]; intros g; cbn [run app]; [done|].
  destruct (apply_op g op); [apply IH | done].
Qed.

(** ** Invariants of the field *)

Lemma reverseCell_eq g x y row :
  field g !! y = Some row ->
  reverseCell g x y
  = Some (call (with_field g (<[y := <[x := GoByte.xor (cell g x y) GoByte.one]> row]>
                                (field g)))
               (draw_call g x y (GoByte.xor (cell g x y) GoByte.one))).
Proof.
  intros Hrow. unfold reverseCell, field_set. rewrite Hrow.
  rewrite drawCell_call. cbn [field with_field].
  by rewrite field_get_insert.
Qed.

Lemma reverseCell_total g x y :
  rows_ok g -> 0 <= y < height g -> is_Some (reverseCell g x y).
Proof.
  intros Hrows Hy. destruct (Hrows y Hy) as [row Hrow].
  rewrite (reverseCell_eq g x y row Hrow). eauto.
Qed.

Lemma reverseCell_cell g g' x y x' y' :
  reverseCell g x y = Some g' ->
  cell g' x' y' = if decide ((x', y') = (x, y))
                  then GoByte.xor (cell g x y) GoByte.one else cell g x' y'.
Proof.
  unfold reverseCell.
  destruct (field_set (field g) y x _) as [f|] eqn:E; [|done].
  intros [= <-]. rewrite drawCell_call. unfold cell. cbn [field call with_screen with_field].
  case_decide as Hc.
  - injection Hc as -> ->. by rewrite (field_get_set_eq _ _ _ _ _ E).
  - rewrite (field_get_set_ne _ _ _ _ _ _ _ E); [done | congruence].
Qed.

Lemma reverseCell_frame g g' x y :
  reverseCell g x y = Some g' ->
  width g' = width g /\ height g' = height g /\ evolution g' = evolution g /\
  delay g' = delay g /\ stop g' = stop g /\ generation g' = generation g /\
  stateWidth g' = stateWidth g /\
  screen g' = screen g ++ [draw_call g x y (cell g' x y)].
Proof.
  unfold reverseCell.
  destruct (field_set (field g) y x _) as [f|] eqn:E; [|done].
  intros [= <-]. rewrite drawCell_call. by repeat split.
Qed.

Lemma nextCellState_binary g x y : binary g ->
  nextCellState g x y = GoByte.zero \/ nextCellState g x y = GoByte.one.
Proof.
  intros Hb. unfold nextCellState.
  destruct (neigbors g x y =? 3); [by right|].
  destruct (neigbors g x y =? 4); [apply (Hb x y) | by left].
Qed.

Lemma xor_one_binary b :
  b = GoByte.zero \/ b = GoByte.one ->
  GoByte.xor b GoByte.one = GoByte.zero \/ GoByte.xor b GoByte.one = GoByte.one.
Proof. intros [-> | ->]; [by right | by left]. Qed.

Lemma NewGame_rows_ok sw sh : rows_ok (NewGame sw sh).
Proof.
  intros y Hy. cbn [NewGame field height] in *.
  rewrite makeNewMap_lookup, decide_True by done. eauto.
Qed.

Lemma NewGame_binary sw sh : binary (NewGame sw sh).
Proof. intros x y. left. apply makeNewMap_get. Qed.

Lemma NewGame_no_stray sw sh : no_stray (NewGame sw sh).
Proof.
  intros y row x. cbn [NewGame field]. rewrite makeNewMap_lookup.
  case_decide; [|done]. intros [= <-]. rewrite lookup_empty. by intros [? ?].
Qed.

Lemma apply_op_rows_ok g op g' : apply_op g op = Some g' -> rows_ok g -> rows_ok g'.
Proof.
  destruct op as [| x y | w h | | |]; cbn [apply_op].
  - rewrite tick_eq. intros [= <-] _ y Hy. cbn [field height] in *.
    rewrite tick_field_lookup, decide_True by done. eauto.
  - intros E Hr y' Hy'.
    destruct (reverseCell_frame _ _ _ _ E) as (_ & Hh & _). rewrite Hh in Hy'.
    unfold reverseCell in E.
    destruct (field_set (field g) y x _) as [f|] eqn:E2; [|done].
    injection E as <-. rewrite drawCell_call. cbn [field call with_screen with_field].
    rewrite (field_set_rows _ _ _ _ _ y' E2). by apply Hr.
  - rewrite resize_eq. intros [= <-] _ y Hy. cbn [field height] in *.
    rewrite resize_field_lookup, decide_True by done. eauto.
  - intros [= <-]. unfold switchMode. by destruct (evolution g).
  - by intros [= <-].
  - by intros [= <-].
Qed.

Lemma apply_op_binary g op g' : apply_op g op = Some g' -> binary g -> binary g'.
Proof.
  destruct op as [| x y | w h | | |]; cbn [apply_op].
  - rewrite tick_eq. intros [= <-] Hb x y. unfold cell. cbn [field].
    rewrite tick_field_get. case_decide; [by apply nextCellState_binary | by left].
  - intros E Hb x' y'. rewrite (reverseCell_cell _ _ _ _ _ _ E).
    case_decide; [apply xor_one_binary|]; apply Hb.
  - rewrite resize_eq. intros [= <-] Hb x y.
    change (cell (mkGame ?a ?b ?c ?d ?f ?s ?t ?n ?k) x y) with (field_get f y x).
    rewrite resize_field_get. case_decide; [apply Hb | by left].
  - intros [= <-]. unfold switchMode. by destruct (evolution g).
  - by intros [= <-].
  - by intros [= <-].
Qed.

(** Every state the program reaches from [NewGame] has all its rows and
    only 0/1 cells. *)
Lemma run_invariants g ops g' :
  run g ops = Some g' -> rows_ok g /\ binary g -> rows_ok g' /\ binary g'.
Proof.
  revert g. induction ops as [| op ops IH]; intros g; cbn [run].
  - by intros [= <-].
  - destruct (apply_op g op) as [g1|] eqn:E; [|done].
    intros Hrun [Hr Hb]. apply (IH g1 Hrun).
    split; [by apply (apply_op_rows_ok g op) | by apply (apply_op_binary g op)].
Qed.

(** ** The rule of the game *)

Lemma blinker_reached :
  run (NewGame 15 5) [OpReverseCell 1 2; OpReverseCell 2 2; OpReverseCell 3 2]
  = Some blinker.
Proof. vm_compute. reflexivity. Qed.

Lemma blinker_size : width blinker = 5 /\ height blinker = 5.
Proof. split; vm_compute; reflexivity. Qed.

Lemma blinker_binary : binary blinker.
Proof.
  apply (run_invariants _ _ _ blinker_reached).
  split; [apply NewGame_rows_ok | apply NewGame_binary].
Qed.

Lemma sum_states_bounds g cs :
  binary g -> 0 <= sum_states g cs <= Z.of_nat (length cs).
Proof.
  intros Hb. induction cs as [| c cs IH]; cbn [sum_states foldr length]; [lia|].
  fold (sum_states g cs).
  destruct (Hb (fst c) (snd c)) as [-> | ->];
    [rewrite to_int_zero | rewrite to_int_one]; lia.
Qed.

(** C1, as the specification states it, fails: the middle cell of the
    blinker is alive with two live neighbours; the sum of [nextCellState]
    is 3 (it counts the cell itself) and the cell stays alive, where the
    rule applied to the 8 neighbours gives a dead cell. *)
Lemma nextState_counts_the_cell_itself :
  ~ (forall g x y, 0 < width g -> 0 < height g -> in_grid g x y ->
       nextCellState g x y = spec_nextState g x y).
Proof.
  intros H.
  assert (nextCellState blinker 2 2 = spec_nextState blinker 2 2) as E.
  { apply H; by vm_compute. }
  vm_compute in E. discriminate E.
Qed.

(** C1 (amended): on every grid of positive width and height and every
    cell of the grid, [nextCellState] applies the rule to the sum of the
    states of the nine cells of the toroidal 3x3 block around the cell,
    the cell itself included: a sum of 3 gives a live cell, a sum of 4
    the current state, any other sum a dead cell.  On 0/1 cells the sum
    lies in 0..9. *)
Theorem nextCellState_rule_on_block g x y :
  0 < width g <= GoInt.max_int -> 0 < height g <= GoInt.max_int ->
  in_grid g x y ->
  nextCellState g x y = rule g x y (blockCount g x y) /\
  (binary g -> 0 <= blockCount g x y <= 9).
Proof.
  intros Hw Hh Hxy. split.
  - unfold nextCellState, rule, cell. by rewrite neigbors_blockCount.
  - intros Hb. apply (sum_states_bounds g (map (torus g x y) block) Hb).
Qed.

Lemma nextCellState_rule_on_block_witness :
  (0 < width blinker <= GoInt.max_int /\ 0 < height blinker <= GoInt.max_int /\
   in_grid blinker 2 2) /\
  nextCellState blinker 2 2 = rule blinker 2 2 (blockCount blinker 2 2) /\
  (binary blinker -> 0 <= blockCount blinker 2 2 <= 9).
Proof.
  assert (0 < width blinker <= GoInt.max_int) as Hw by (by vm_compute).
  assert (0 < height blinker <= GoInt.max_int) as Hh by (by vm_compute).
  assert (in_grid blinker 2 2) as Hxy by (by vm_compute).
  split; [done|]. exact (nextCellState_rule_on_block blinker 2 2 Hw Hh Hxy).
Defined.

(** The live cell at (0, 0) is counted from the three cells across the
    edges of the grid. *)
Example neigbors_across_the_edges :
  neigbors origin 3 3 = 1 /\ neigbors origin 3 0 = 1 /\ neigbors origin 0 3 = 1.
Proof. by vm_compute. Qed.

(** The blinker turns from horizontal to vertical in one generation. *)
Example blinker_turns :
  live_cells blinker = [(1, 2); (2, 2); (3, 2)] /\
  live_cells (default blinker (tick blinker)) = [(2, 1); (2, 2); (2, 3)].
Proof. by vm_compute. Qed.

(** No birth without live cells. *)
Lemma nextCellState_all_dead g x y :
  (forall x' y', cell g x' y' = GoByte.zero) -> nextCellState g x y = GoByte.zero.
Proof.
  intros Hdead. unfold nextCellState.
  assert (neigbors g x y = 0) as ->; [|done].
  unfold neigbors. rewrite seqZ_offsets. cbn [foldl].
  repeat match goal with
         | |- context [field_get (field g) ?b ?a] =>
             change (field_get (field g) b a) with (cell g a b);
             rewrite (Hdead a b)
         end.
  reflexivity.
Qed.

(** *** Conway's rule *)

Lemma sum_states_live g cs :
  binary g ->
  sum_states g cs
  = Z.of_nat (length (filter (fun c => alive g (fst c) (snd c) = true) cs)).
Proof.
  intros Hb. induction cs as [| c cs IH]; [done|].
  cbn [sum_states foldr]. fold (sum_states g cs). rewrite IH, filter_cons.
  assert (alive g (fst c) (snd c) = false /\ GoByte.to_int (cell g (fst c) (snd c)) = 0 \/
          alive g (fst c) (snd c) = true /\ GoByte.to_int (cell g (fst c) (snd c)) = 1)
    as [[Ha ->] | [Ha ->]].
  { unfold alive. destruct (Hb (fst c) (snd c)) as [-> | ->]; [by left | by right]. }
  - rewrite decide_False by (by rewrite Ha). lia.
  - rewrite decide_True by done. cbn [length]. lia.
Qed.

Lemma blockCount_split g x y :
  in_grid g x y ->
  blockCount g x y = neighborCount g x y + GoByte.to_int (cell g x y).
Proof.
  intros [Hx Hy]. unfold blockCount, neighborCount, sum_states, block, around, torus.
  cbn [map foldr fst snd]. rewrite !Z.add_0_r.
  rewrite (Z.mod_small x), (Z.mod_small y) by lia. lia.
Qed.

(** With at least three columns and three rows the 8 neighbours are 8
    different cells, none of them the cell itself. *)
Lemma neighbours_distinct g x y :
  3 <= width g -> 3 <= height g -> in_grid g x y ->
  NoDup (neighbours g x y) /\ (x, y) ∉ neighbours g x y.
Proof.
  intros Hw Hh [Hx Hy]. unfold neighbours, around, torus. cbn [map fst snd].
  assert ((x + -1) mod width g <> x /\ (x + 1) mod width g <> x /\
          (x + -1) mod width g <> (x + 1) mod width g) as (Hx1 & Hx2 & Hx3).
  { destruct (decide (x = 0)) as [-> | ?].
    - rewrite (Z.mod_small (0 + 1)) by lia.
      replace ((0 + -1) mod width g) with (width g - 1)
        by (apply (Z.mod_unique (0 + -1) (width g) (-1)); lia).
      lia.
    - rewrite (Z.mod_small (x + -1)) by lia.
      destruct (decide (x = width g - 1)) as [-> | ?].
      + replace (width g - 1 + 1) with (width g) by lia.
        rewrite Z_mod_same_full. lia.
      + rewrite (Z.mod_small (x + 1)) by lia. lia. }
  assert ((y + -1) mod height g <> y /\ (y + 1) mod height g <> y /\
          (y + -1) mod height g <> (y + 1) mod height g) as (Hy1 & Hy2 & Hy3).
  { destruct (decide (y = 0)) as [-> | ?].
    - rewrite (Z.mod_small (0 + 1)) by lia.
      replace ((0 + -1) mod height g) with (height g - 1)
        by (apply (Z.mod_unique (0 + -1) (height g) (-1)); lia).
      lia.
    - rewrite (Z.mod_small (y + -1)) by lia.
      destruct (decide (y = height g - 1)) as [-> | ?].
      + replace (height g - 1 + 1) with (height g) by lia.
        rewrite Z_mod_same_full. lia.
      + rewrite (Z.mod_small (y + 1)) by lia. lia. }
  rewrite !Z.add_0_r. rewrite (Z.mod_small x), (Z.mod_small y) by lia.
  generalize dependent ((x + -1) mod width g). intros xl ? ?.
  generalize dependent ((x + 1) mod width g). intros xr ? ?.
  generalize dependent ((y + -1) mod height g). intros yu ? ?.
  generalize dependent ((y + 1) mod height g). intros yd ? ?.
  split.
  - repeat (apply NoDup_cons; split;
            [rewrite ?elem_of_cons, elem_of_nil; intros Hin;
             repeat (destruct Hin as [Hin | Hin]; [injection Hin; lia|]); done |]).
    apply NoDup_nil_2.
  - rewrite ?elem_of_cons, elem_of_nil. intros Hin.
    repeat (destruct Hin as [Hin | Hin]; [injection Hin; lia|]). done.
Qed.

(** C10: on a grid of at least three columns and three rows with 0/1
    cells, and for every cell of the grid, the rule applied to the sum
    over the full 3x3 block is Conway's rule on the live cells among the
    8 neighbours, which are 8 distinct cells other than the cell itself. *)
Theorem nextCellState_is_conway g x y :
  3 <= width g <= GoInt.max_int -> 3 <= height g <= GoInt.max_int ->
  binary g -> in_grid g x y ->
  (NoDup (neighbours g x y) /\ (x, y) ∉ neighbours g x y) /\
  nextCellState g x y = conway g x y.
Proof.
  intros Hw Hh Hb Hxy. split; [apply neighbours_distinct; lia || done|].
  unfold nextCellState. rewrite neigbors_blockCount by (lia || done).
  fold (cell g x y). fold (rule g x y (blockCount g x y)).
  rewrite blockCount_split by done.
  unfold neighborCount. rewrite sum_states_live by done.
  unfold rule, conway, live_neighbours, neighbours, alive.
  set (n := Z.of_nat _).
  destruct (Hb x y) as [E | E]; rewrite E;
    [rewrite to_int_zero | rewrite to_int_one]; cbn [GoByte.eqb Byte.eqb].
  - rewrite Z.add_0_r. destruct (n =? 3); [done|]. by destruct (n =? 4).
  - change (Byte.eqb GoByte.one GoByte.one) with true. cbn match.
    destruct (Z.eqb_spec (n + 1) 3), (Z.eqb_spec n 2), (Z.eqb_spec n 3),
      (Z.eqb_spec (n + 1) 4); cbn [orb]; try done; lia.
Qed.

Lemma nextCellState_is_conway_witness :
  (3 <= width blinker <= GoInt.max_int /\ 3 <= height blinker <= GoInt.max_int /\
   binary blinker /\ in_grid blinker 2 2) /\
  (NoDup (neighbours blinker 2 2) /\ (2, 2) ∉ neighbours blinker 2 2) /\
  nextCellState blinker 2 2 = conway blinker 2 2.
Proof.
  assert (3 <= width blinker <= GoInt.max_int) as Hw by (by vm_compute).
  assert (3 <= height blinker <= GoInt.max_int) as Hh by (by vm_compute).
  assert (in_grid blinker 2 2) as Hxy by (by vm_compute).
  split; [by repeat split; try apply blinker_binary|].
  exact (nextCellState_is_conway blinker 2 2 Hw Hh blinker_binary Hxy).
Defined.

(** ** What [tick] draws and writes *)

Lemma column3_reached :
  run (NewGame 14 4) [OpReverseCell 3 0; OpReverseCell 3 1; OpReverseCell 3 2]
  = Some column3.
Proof. vm_compute. reflexivity. Qed.

(** On the cells of the grid the new field holds the next states, read
    from the old field. *)
Lemma tick_in_grid g g' x y :
  tick g = Some g' -> in_grid g x y -> cell g' x y = nextCellState g x y.
Proof.
  rewrite tick_eq. intros [= <-] [Hx Hy]. unfold cell. cbn [field].
  rewrite tick_field_get. by rewrite decide_True by lia.
Qed.

Lemma elem_of_tick_cell_draw g y x c :
  c ∈ tick_cell_draw g y x <->
  nextCellState g x y <> cell g x y /\ c = draw_call g x y (nextCellState g x y).
Proof.
  unfold tick_cell_draw.
  destruct (GoByte.eqb (nextCellState g x y) (cell g x y)) eqn:E.
  - apply byte_eqb_eq in E. rewrite elem_of_nil. tauto.
  - apply byte_eqb_neq in E. rewrite list_elem_of_singleton. tauto.
Qed.

Lemma elem_of_flat_map {A B} (f : A -> list B) (l : list A) (b : B) :
  b ∈ flat_map f l <-> exists a, a ∈ l /\ b ∈ f a.
Proof.
  rewrite list_elem_of_In, in_flat_map.
  split; intros (a & Ha & Hb); exists a; by rewrite ?list_elem_of_In in *.
Qed.

(** The calls [tick] makes: one [drawCell] for every changed cell of the
    rows of the grid in columns [0 .. width], the column [width]
    included. *)
Lemma elem_of_tick_draws g c :
  c ∈ tick_draws g <->
  exists x y, (0 <= y < height g /\ 0 <= x <= width g) /\
              nextCellState g x y <> cell g x y /\
              c = draw_call g x y (nextCellState g x y).
Proof.
  unfold tick_draws. rewrite elem_of_flat_map. split.
  - intros (y & Hy & Hc). apply elem_of_flat_map in Hc as (x & Hx & Hc).
    apply elem_of_seqZ in Hx, Hy. apply elem_of_tick_cell_draw in Hc.
    exists x, y. split; [lia | exact Hc].
  - intros (x & y & [Hy Hx] & Hc). exists y. split; [apply elem_of_seqZ; lia|].
    apply elem_of_flat_map. exists x. split; [apply elem_of_seqZ; lia|].
    by apply elem_of_tick_cell_draw.
Qed.

(** C2 at the failing input: on the 4x4 grid [column3] one [tick] also
    draws the cell (4, 1), whose column is the width of the grid: the
    column loop runs to [x <= game.width].  The cells drawn are not only
    cells of the grid. *)
Theorem tick_draws_outside_the_grid :
  exists g', tick column3 = Some g' /\
             width column3 = 4 /\ height column3 = 4 /\
             (4, 1) ∈ drawn_by column3 g' /\ ~ in_grid column3 4 1.
Proof.
  exists column3_ticked. split; [vm_compute; reflexivity|].
  split; [by vm_compute|]. split; [by vm_compute|]. split.
  - apply list_elem_of_In. vm_compute. repeat (first [left; reflexivity | right]).
  - unfold in_grid. vm_compute. intros [[_ H] _]. discriminate H.
Qed.

(** C3 at every grid with a row: after [tick] the first row holds an
    entry in column [width], outside the grid, so the domain invariant
    is lost. *)
Theorem tick_breaks_grid_domain g :
  0 < height g -> 0 <= width g ->
  exists g', tick g = Some g' /\
             (exists row, field g' !! 0 = Some row /\ is_Some (row !! width g')) /\
             ~ grid_domain g'.
Proof.
  intros Hh Hw. eexists. split; [apply tick_eq|].
  cbn [field width].
  assert (tick_field g !! 0 = Some (tick_row_fill g 0 ∅)) as Hrow.
  { rewrite tick_field_lookup. by rewrite decide_True by lia. }
  assert (is_Some (tick_row_fill g 0 ∅ !! width g)) as Hcell.
  { rewrite tick_row_fill_lookup. rewrite decide_True by lia. eauto. }
  split; [eauto|].
  intros [_ Hstray]. destruct (Hstray 0 _ (width g) Hrow Hcell) as [Hx _].
  cbn [width] in Hx. lia.
Qed.

Lemma tick_breaks_grid_domain_witness :
  (0 < height (NewGame 11 1) /\ 0 <= width (NewGame 11 1)) /\
  grid_domain (NewGame 11 1) /\
  exists g', tick (NewGame 11 1) = Some g' /\
             (exists row, field g' !! 0 = Some row /\ is_Some (row !! width g')) /\
             ~ grid_domain g'.
Proof.
  assert (0 < height (NewGame 11 1)) as Hh by (by vm_compute).
  assert (0 <= width (NewGame 11 1)) as Hw by (by vm_compute).
  split; [done|]. split; [split; [apply NewGame_rows_ok | apply NewGame_no_stray]|].
  exact (tick_breaks_grid_domain (NewGame 11 1) Hh Hw).
Defined.

Lemma tick_frame g g' :
  tick g = Some g' ->
  width g' = width g /\ height g' = height g /\ evolution g' = evolution g /\
  delay g' = delay g /\ stop g' = stop g /\ stateWidth g' = stateWidth g /\
  generation g' = GoInt.add (generation g) 1 /\
  screen g' = screen g ++ tick_draws g.
Proof. rewrite tick_eq. intros [= <-]. by repeat split. Qed.

(** ** What [resize] copies *)

Lemma resize_frame g w h g' :
  resize g w h = Some g' ->
  width g' = GoInt.sub w (stateWidth g) /\ height g' = h /\ evolution g' = false /\
  delay g' = delay g /\ stop g' = stop g /\ stateWidth g' = stateWidth g /\
  generation g' = generation g.
Proof. rewrite resize_eq. intros [= <-]. by repeat split. Qed.

(** The cells of the new grid: [resize] copies the old columns
    [0 .. width], the column [width] included, of the old rows. *)
Lemma resize_cells g w h g' x y :
  resize g w h = Some g' -> 0 <= width g -> in_grid g' x y ->
  cell g' x y = if decide (x <= width g /\ y < height g) then cell g x y
                else GoByte.zero.
Proof.
  rewrite resize_eq. intros [= <-] Hw [Hx Hy]. cbn [width height] in Hx, Hy.
  change (cell (mkGame ?a ?b ?c ?d ?f ?s ?t ?n ?k) x y) with (field_get f y x).
  rewrite resize_field_get.
  destruct (decide (x <= width g /\ y < height g));
    [rewrite decide_True by lia | rewrite decide_False by lia]; done.
Qed.

(** On a field without entries outside the grid this is the overlap of
    the two grids, the rest of the new grid being dead. *)
Lemma resize_cells_clean g w h g' x y :
  resize g w h = Some g' -> 0 <= width g -> no_stray g -> in_grid g' x y ->
  cell g' x y = if decide (x < width g /\ y < height g) then cell g x y
                else GoByte.zero.
Proof.
  intros E Hw Hclean Hxy. rewrite (resize_cells g w h g' x y E Hw Hxy).
  destruct (decide (x <= width g /\ y < height g)) as [[Hx Hy] | Hn].
  - destruct (decide (x = width g)) as [-> | Hne].
    + rewrite decide_False by lia. unfold cell, field_get.
      destruct (field g !! y) as [row|] eqn:Hrow; [|done].
      destruct (row !! width g) as [v|] eqn:Hv; [|done].
      destruct (Hclean y row (width g) Hrow) as [Hbad _]; [eauto | lia].
    + by rewrite decide_True by lia.
  - by rewrite decide_False by lia.
Qed.

(** On that freshly edited grid the two resizes of the specification's
    test give what it expects. *)
Example resize_corner_to_6x6 :
  exists g', resize corner 16 6 = Some g' /\
             width g' = 6 /\ height g' = 6 /\ live_cells g' = [(3, 3)].
Proof. eexists. split; [apply resize_eq|]. by vm_compute. Qed.

Example resize_corner_to_2x2 :
  exists g', resize corner 12 2 = Some g' /\
             width g' = 2 /\ height g' = 2 /\ live_cells g' = [].
Proof. eexists. split; [apply resize_eq|]. by vm_compute. Qed.

(** The entry that [tick] leaves in column [width] comes into the grid
    when the terminal is widened: a 4x4 game reached by three clicks and
    one [tick], resized to 6 columns, has a live cell at (4, 1). *)
Example resize_copies_the_column_of_tick :
  run (NewGame 14 4)
      [OpReverseCell 3 0; OpReverseCell 3 1; OpReverseCell 3 2; OpTick]
  = Some column3_ticked /\
  resize column3_ticked 16 4 = Some column3_resized /\
  (width column3_ticked = 4 /\ width column3_resized = 6) /\
  cell column3_resized 4 1 = GoByte.one.
Proof.
  split; [vm_compute; reflexivity|]. split; [vm_compute; reflexivity|].
  by vm_compute.
Qed.

(** C4 at the failing input: a 4x4 game with one live cell at (2, 0) is
    shrunk to 2 columns; the column loop of [resize] runs to [x <= w]
    and stores the old column 2 as well, so the 2x4 grid, all dead, keeps
    a live entry in column 2.  Widened to 4 columns again, [resize]
    copies the old columns [0 .. 2]: the new grid has a live cell at
    (2, 0), outside the old grid, where C4 has every cell outside the
    overlap dead. *)
Theorem resize_revives_a_dropped_cell :
  exists g g',
    run (NewGame 14 4) [OpReverseCell 2 0; OpResize 12 4] = Some g /\
    resize g 14 4 = Some g' /\
    (width g = 2 /\ height g = 4 /\ live_cells g = []) /\
    (width g' = 4 /\ height g' = 4) /\
    ~ in_grid g 2 0 /\ in_grid g' 2 0 /\
    cell g' 2 0 = GoByte.one.
Proof.
  exists shrunk, widened.
  split; [vm_compute; reflexivity|]. split; [vm_compute; reflexivity|].
  unfold in_grid. vm_compute.
  repeat split; try reflexivity; try discriminate.
  intros [[_ H] _]. discriminate H.
Qed.

(** ** Manual editing *)

(** C5: on a game whose rows are all there, [reverseCell] on a cell of
    the grid succeeds, flips the cell, and a second call restores it: the
    field reads as before at every coordinate, nothing but the screen has
    changed, and the second call has drawn the original state. *)
Theorem reverseCell_twice g x y :
  rows_ok g -> in_grid g x y ->
  exists g1 g2,
    reverseCell g x y = Some g1 /\ reverseCell g1 x y = Some g2 /\
    cell g1 x y <> cell g x y /\
    (forall x' y', cell g2 x' y' = cell g x' y') /\
    (width g2 = width g /\ height g2 = height g /\ evolution g2 = evolution g /\
     delay g2 = delay g /\ stop g2 = stop g /\ generation g2 = generation g /\
     stateWidth g2 = stateWidth g) /\
    screen g2 = screen g ++ [draw_call g x y (cell g1 x y); draw_call g x y (cell g x y)].
Proof.
  intros Hrows [Hx Hy].
  destruct (reverseCell_total g x y Hrows Hy) as [g1 E1].
  assert (rows_ok g1) as Hrows1 by exact (apply_op_rows_ok g (OpReverseCell x y) g1 E1 Hrows).
  destruct (reverseCell_frame g g1 x y E1) as (Hw1 & Hh1 & He1 & Hd1 & Hs1 & Hg1 & Hk1 & Hsc1).
  assert (0 <= y < height g1) as Hy1 by (by rewrite Hh1).
  destruct (reverseCell_total g1 x y Hrows1 Hy1) as [g2 E2].
  destruct (reverseCell_frame g1 g2 x y E2) as (Hw2 & Hh2 & He2 & Hd2 & Hs2 & Hg2 & Hk2 & Hsc2).
  pose proof (reverseCell_cell g g1 x y x y E1) as Hc1. rewrite decide_True in Hc1 by done.
  assert (forall x' y', cell g2 x' y' = cell g x' y') as Hsame.
  { intros x' y'. rewrite (reverseCell_cell g1 g2 x y x' y' E2).
    rewrite (reverseCell_cell g g1 x y x' y' E1).
    case_decide as Hc; [|done]. rewrite (reverseCell_cell g g1 x y x y E1).
    rewrite decide_True by done. injection Hc as -> ->. apply xor_one_involutive. }
  exists g1, g2. repeat split; try congruence.
  - rewrite Hc1. apply xor_one_changes.
  - rewrite Hsc2, Hsc1, <- app_assoc. cbn [app]. rewrite Hsame.
    unfold draw_call. by rewrite Hk1.
Qed.

Lemma reverseCell_twice_witness :
  (rows_ok blinker /\ in_grid blinker 2 2) /\
  exists g1 g2,
    reverseCell blinker 2 2 = Some g1 /\ reverseCell g1 2 2 = Some g2 /\
    cell g1 2 2 <> cell blinker 2 2 /\
    (forall x' y', cell g2 x' y' = cell blinker x' y') /\
    (width g2 = width blinker /\ height g2 = height blinker /\
     evolution g2 = evolution blinker /\
     delay g2 = delay blinker /\ stop g2 = stop blinker /\
     generation g2 = generation blinker /\
     stateWidth g2 = stateWidth blinker) /\
    screen g2 = screen blinker ++ [draw_call blinker 2 2 (cell g1 2 2);
                                   draw_call blinker 2 2 (cell blinker 2 2)].
Proof.
  assert (rows_ok blinker) as Hrows.
  { apply (run_invariants _ _ _ blinker_reached).
    split; [apply NewGame_rows_ok | apply NewGame_binary]. }
  assert (in_grid blinker 2 2) as Hxy by (by vm_compute).
  split; [done|]. exact (reverseCell_twice blinker 2 2 Hrows Hxy).
Defined.

(** ** The generation counter *)

Lemma apply_op_generation g op g' :
  apply_op g op = Some g' ->
  generation g' = if is_tick op then GoInt.add (generation g) 1 else generation g.
Proof.
  destruct op as [| x y | w h | | |]; cbn [apply_op is_tick].
  - intros E. by destruct (tick_frame g g' E) as (_ & _ & _ & _ & _ & _ & -> & _).
  - intros E. by destruct (reverseCell_frame g g' x y E) as (_ & _ & _ & _ & _ & -> & _).
  - intros E. by destruct (resize_frame g w h g' E) as (_ & _ & _ & _ & _ & _ & ->).
  - intros [= <-]. unfold switchMode. by destruct (evolution g).
  - by intros [= <-].
  - by intros [= <-].
Qed.

Lemma ticks_cons op ops :
  ticks (op :: ops) = (if is_tick op then 1 else 0) + ticks ops.
Proof.
  unfold ticks. rewrite filter_cons.
  destruct (is_tick op);
    [rewrite decide_True by exact I | rewrite decide_False by (intros [])];
    cbn [length]; lia.
Qed.

Lemma ticks_nonneg ops : 0 <= ticks ops.
Proof. unfold ticks. lia. Qed.

Lemma ticks_app ops1 ops2 : ticks (ops1 ++ ops2) = ticks ops1 + ticks ops2.
Proof. unfold ticks. rewrite filter_app, length_app. lia. Qed.

Lemma run_generation ops : forall g g',
  run g ops = Some g' ->
  0 <= generation g -> generation g + ticks ops <= GoInt.max_int ->
  generation g' = generation g + ticks ops.
Proof.
  induction ops as [| op ops IH]; intros g g'; cbn [run].
  - intros [= <-] _ _. unfold ticks. cbn. lia.
  - destruct (apply_op g op) as [g1|] eqn:E; [|done].
    intros Hrun H0 Hmax. rewrite ticks_cons in *.
    pose proof (ticks_nonneg ops).
    pose proof (apply_op_generation g op g1 E) as Hg1.
    destruct (is_tick op).
    + rewrite add_id in Hg1 by int_range.
      rewrite (IH g1 g' Hrun) by lia. lia.
    + rewrite (IH g1 g' Hrun) by lia. lia.
Qed.

(** C6: the counter is 0 in a new game; after any operations [ops1] it
    is the number of [tick]s among them, and any further operations
    [ops2] add their number of [tick]s to it (so it never decreases, one
    [tick] adds 1, and [reverseCell] and [resize] add nothing), as long
    as the count fits an [int]. *)
Theorem generation_counts_ticks sw sh ops1 ops2 g1 g2 :
  run (NewGame sw sh) ops1 = Some g1 -> run g1 ops2 = Some g2 ->
  ticks (ops1 ++ ops2) <= GoInt.max_int ->
  generation (NewGame sw sh) = 0 /\
  generation g1 = ticks ops1 /\
  generation g2 = generation g1 + ticks ops2 /\
  generation g1 <= generation g2.
Proof.
  intros E1 E2 Hmax. rewrite ticks_app in Hmax.
  pose proof (ticks_nonneg ops1). pose proof (ticks_nonneg ops2).
  assert (generation g1 = ticks ops1) as H1.
  { rewrite (run_generation ops1 _ _ E1); cbn [NewGame generation]; lia. }
  assert (generation g2 = generation g1 + ticks ops2) as H2.
  { rewrite (run_generation ops2 _ _ E2); lia. }
  repeat split; try done. lia.
Qed.

Lemma generation_counts_ticks_witness :
  (run (NewGame 14 4) session1 = Some after_session1 /\
   run after_session1 session2 = Some after_session2 /\
   ticks (session1 ++ session2) <= GoInt.max_int) /\
  generation (NewGame 14 4) = 0 /\
  generation after_session1 = ticks session1 /\
  generation after_session2 = generation after_session1 + ticks session2 /\
  generation after_session1 <= generation after_session2.
Proof.
  assert (run (NewGame 14 4) session1 = Some after_session1) as E1
    by (vm_compute; reflexivity).
  assert (run after_session1 session2 = Some after_session2) as E2
    by (vm_compute; reflexivity).
  assert (ticks (session1 ++ session2) <= GoInt.max_int) as Hmax by (by vm_compute).
  split; [exact (conj E1 (conj E2 Hmax))|].
  exact (generation_counts_ticks 14 4 session1 session2 _ _ E1 E2 Hmax).
Defined.

(** ** The delay between two ticks *)

Lemma increaseDelay_delay g :
  0 <= delay g -> delay g + 50 <= GoInt.max_int ->
  delay (increaseDelay g) = delay g + 50.
Proof. intros. cbn [increaseDelay with_delay delay]. apply add_id. int_range. Qed.

Lemma decreaseDelay_delay g :
  0 <= delay g -> delay g <= GoInt.max_int ->
  delay (decreaseDelay g) = Z.max 0 (delay g - 50).
Proof.
  intros. cbn [decreaseDelay with_delay delay].
  rewrite sub_id by int_range.
  destruct (Z.ltb_spec (delay g - 50) 0); lia.
Qed.

Lemma adjust_delay g a :
  0 <= delay g -> delay g + 50 <= GoInt.max_int ->
  delay (adjust g a) = match a with
                       | DelayUp => delay g + 50
                       | DelayDown => Z.max 0 (delay g - 50)
                       end.
Proof.
  intros. destruct a; cbn [adjust];
    [apply increaseDelay_delay | apply decreaseDelay_delay]; lia.
Qed.

Lemma adjust_frame g a :
  evolution (adjust g a) = evolution g /\ generation (adjust g a) = generation g /\
  field (adjust g a) = field g /\ width (adjust g a) = width g /\
  height (adjust g a) = height g.
Proof. by destruct a. Qed.

Lemma adjusts_delay acts : forall g,
  0 <= delay g -> delay g + 50 * Z.of_nat (length acts) <= GoInt.max_int ->
  0 <= delay (foldl adjust g acts) <= delay g + 50 * Z.of_nat (length acts) /\
  evolution (foldl adjust g acts) = evolution g.
Proof.
  induction acts as [| a acts IH]; intros g H0 Hmax; cbn [foldl length] in *.
  - split; [lia | done].
  - pose proof (adjust_delay g a H0 ltac:(lia)) as Hd.
    destruct (adjust_frame g a) as (He & _).
    destruct (IH (adjust g a)) as [Hr He']; [destruct a; lia | destruct a; lia |].
    rewrite He', He. split; [|done]. destruct a; lia.
Qed.

Lemma count_ups_nonneg acts : 0 <= count_ups acts.
Proof. induction acts as [| [|] acts IH]; cbn [count_ups]; lia. Qed.

Lemma count_ups_app acts1 acts2 :
  count_ups (acts1 ++ acts2) = count_ups acts1 + count_ups acts2.
Proof. induction acts1 as [| [|] acts1 IH]; cbn [count_ups app]; lia. Qed.

Lemma adjusts_delay_ups acts : forall g,
  0 <= delay g -> delay g + 50 * count_ups acts <= GoInt.max_int ->
  0 <= delay (foldl adjust g acts) <= delay g + 50 * count_ups acts /\
  evolution (foldl adjust g acts) = evolution g.
Proof.
  induction acts as [| a acts IH]; intros g H0 Hmax; cbn [foldl count_ups] in *.
  - split; [lia | done].
  - pose proof (count_ups_nonneg acts) as Hn.
    destruct (adjust_frame g a) as (He & _).
    destruct a; cbn [adjust] in *.
    + pose proof (increaseDelay_delay g H0 ltac:(lia)) as Hd.
      destruct (IH (increaseDelay g)) as [Hr He']; [lia | lia |].
      rewrite He', He. split; [lia | done].
    + pose proof (decreaseDelay_delay g H0 ltac:(lia)) as Hd.
      destruct (IH (decreaseDelay g)) as [Hr He']; [lia | lia |].
      rewrite He', He. split; [lia | done].
Qed.

(** C7, as the specification states it, fails: the delay is a 64-bit
    integer and [increaseDelay] adds 50 without a test.  From the largest
    value, which is not negative, one [increaseDelay] wraps around and
    the delay is negative. *)
Lemma delay_wraps_below_zero :
  ~ (forall g acts, 0 <= delay g <= GoInt.max_int -> 0 <= delay (foldl adjust g acts)).
Proof.
  intros H.
  assert (0 <= delay (foldl adjust (with_delay (NewGame 14 4) GoInt.max_int) [DelayUp]))
    as Hneg by (apply H; by vm_compute).
  vm_compute in Hneg. by apply Hneg.
Qed.

(** C7 (amended): from a delay in [0 .. MaxInt64], along any sequence of
    speed actions whose [increaseDelay]s, 50 each, do not take the
    starting delay past the largest 64-bit value (the [decreaseDelay]s
    are not counted), every action moves the delay by the step of 50, up,
    or down and then not below 0; the delay is never negative, and the
    play/pause flag is untouched. *)
Theorem delay_never_negative g acts1 a acts2 :
  0 <= delay g ->
  delay g + 50 * count_ups (acts1 ++ a :: acts2) <= GoInt.max_int ->
  let g1 := foldl adjust g acts1 in
  let g2 := adjust g1 a in
  let g3 := foldl adjust g2 acts2 in
  (0 <= delay g1 /\ 0 <= delay g2 /\ 0 <= delay g3) /\
  delay g2 = match a with
             | DelayUp => delay g1 + 50
             | DelayDown => Z.max 0 (delay g1 - 50)
             end /\
  evolution g3 = evolution g /\
  foldl adjust g (acts1 ++ a :: acts2) = g3.
Proof.
  intros H0 Hmax g1 g2 g3.
  rewrite count_ups_app in Hmax.
  change (a :: acts2) with ([a] ++ acts2) in Hmax. rewrite count_ups_app in Hmax.
  pose proof (count_ups_nonneg acts1). pose proof (count_ups_nonneg acts2).
  pose proof (count_ups_nonneg [a]).
  destruct (adjusts_delay_ups acts1 g H0 ltac:(lia)) as [Hr1 He1]. fold g1 in Hr1, He1.
  destruct (adjusts_delay_ups [a] g1 ltac:(lia) ltac:(lia)) as [Hr2 He2].
  cbn [foldl] in Hr2, He2. fold g2 in Hr2, He2.
  destruct (adjusts_delay_ups acts2 g2 ltac:(lia) ltac:(lia)) as [Hr3 He3].
  fold g3 in Hr3, He3.
  assert (delay g2 = match a with
                     | DelayUp => delay g1 + 50
                     | DelayDown => Z.max 0 (delay g1 - 50)
                     end) as Hd2.
  { subst g2. destruct a; cbn [adjust count_ups] in *.
    - apply increaseDelay_delay; lia.
    - apply decreaseDelay_delay; lia. }
  split; [lia|]. split; [exact Hd2|]. split; [congruence|].
  by rewrite foldl_app.
Qed.

Lemma delay_never_negative_witness :
  (0 <= delay (with_delay (NewGame 14 4) (GoInt.max_int - 50)) /\
   delay (with_delay (NewGame 14 4) (GoInt.max_int - 50))
   + 50 * count_ups ([DelayDown; DelayDown] ++ DelayUp :: [DelayDown; DelayDown; DelayDown])
   <= GoInt.max_int) /\
  let g1 := foldl adjust (with_delay (NewGame 14 4) (GoInt.max_int - 50))
                  [DelayDown; DelayDown] in
  let g2 := adjust g1 DelayUp in
  let g3 := foldl adjust g2 [DelayDown; DelayDown; DelayDown] in
  (0 <= delay g1 /\ 0 <= delay g2 /\ 0 <= delay g3) /\
  delay g2 = delay g1 + 50 /\
  evolution g3 = evolution (with_delay (NewGame 14 4) (GoInt.max_int - 50)) /\
  foldl adjust (with_delay (NewGame 14 4) (GoInt.max_int - 50))
        ([DelayDown; DelayDown] ++ DelayUp :: [DelayDown; DelayDown; DelayDown]) = g3.
Proof.
  assert (0 <= delay (with_delay (NewGame 14 4) (GoInt.max_int - 50))) as H0
    by (by vm_compute).
  split; [split; [exact H0 | by vm_compute]|].
  apply (delay_never_negative (with_delay (NewGame 14 4) (GoInt.max_int - 50))
                              _ DelayUp _ H0).
  by vm_compute.
Defined.

(** ** Pointer clicks *)

(** C8, as the specification states it, fails: the handler only
    compares the screen column with the margin.  On a fresh 4x4 game
    (terminal of 14 columns) a click at screen position (14, 0) reaches
    [reverseCell] with column 4, outside the grid, and a cell is stored
    there; a click at (12, 4), below the last row, reaches it with row 4
    and the write panics. *)
Lemma click_outside_the_grid_is_dispatched :
  (exists g', handleEvent (NewGame 14 4) (EventMouse Button1 14 0) = Some (g', Continue) /\
              ~ in_grid (NewGame 14 4) 4 0 /\
              cell (NewGame 14 4) 4 0 = GoByte.zero /\ cell g' 4 0 = GoByte.one /\
              screen g' = [SetContent 14 0 "X"%char; Show]) /\
  ~ in_grid (NewGame 14 4) 2 4 /\
  handleEvent (NewGame 14 4) (EventMouse Button1 12 4) = None.
Proof.
  split; [|split].
  - eexists. split; [vm_compute; reflexivity|].
    unfold in_grid. vm_compute. repeat split; try reflexivity.
    intros [[_ H] _]. discriminate H.
  - unfold in_grid. vm_compute. intros [_ [_ H]]. discriminate H.
  - vm_compute. reflexivity.
Qed.

(** C8 (amended): a click without button 1, or with its screen column
    inside the left margin, changes nothing; every other click calls
    [reverseCell] at column [x - stateWidth] (which is not negative) and
    row [y], with no check against the bounds of the grid: the cell is
    in the grid exactly when the click is at a column below
    [stateWidth + width] and at a row of the grid. *)
Theorem click_dispatch g buttons x y :
  GoInt.in_range x -> 0 <= stateWidth g ->
  (Z.land buttons Button1 = 0 \/ x < stateWidth g ->
   handleEvent g (EventMouse buttons x y) = Some (g, Continue)) /\
  (Z.land buttons Button1 <> 0 -> stateWidth g <= x ->
   handleEvent g (EventMouse buttons x y)
   = match reverseCell g (x - stateWidth g) y with
     | Some g' => Some (call g' Show, Continue)
     | None => None
     end /\
   0 <= x - stateWidth g /\
   (in_grid g (x - stateWidth g) y <->
    x < stateWidth g + width g /\ 0 <= y < height g)).
Proof.
  intros Hx Hsw. cbn [handleEvent]. split.
  - intros [Hb | Hm].
    + rewrite Hb. reflexivity.
    + destruct (negb (Z.land buttons Button1 =? 0)); [|done].
      destruct (Z.geb_spec x (stateWidth g)); [lia | done].
  - intros Hb Hm. split; [|split; [lia | unfold in_grid; lia]].
    destruct (Z.eqb_spec (Z.land buttons Button1) 0); [done|]. cbn [negb].
    destruct (Z.geb_spec x (stateWidth g)); [|lia].
    rewrite sub_id by int_range. reflexivity.
Qed.

Lemma click_dispatch_witness :
  (GoInt.in_range 12 /\ 0 <= stateWidth blinker) /\
  (Z.land Button1 Button1 = 0 \/ 12 < stateWidth blinker ->
   handleEvent blinker (EventMouse Button1 12 2) = Some (blinker, Continue)) /\
  (Z.land Button1 Button1 <> 0 -> stateWidth blinker <= 12 ->
   handleEvent blinker (EventMouse Button1 12 2)
   = match reverseCell blinker (12 - stateWidth blinker) 2 with
     | Some g' => Some (call g' Show, Continue)
     | None => None
     end /\
   0 <= 12 - stateWidth blinker /\
   (in_grid blinker (12 - stateWidth blinker) 2 <->
    12 < stateWidth blinker + width blinker /\ 0 <= 2 < height blinker)).
Proof.
  assert (GoInt.in_range 12) as Hx by (by vm_compute).
  assert (0 <= stateWidth blinker) as Hsw by (by vm_compute).
  split; [exact (conj Hx Hsw)|]. exact (click_dispatch blinker Button1 12 2 Hx Hsw).
Defined.

(** ** The dimensions *)

(** C9, as the specification states it, fails: nothing rejects a
    degenerate size.  A terminal of 10 columns gives a new game of width
    0, and resizing to a terminal of 5 columns and 0 rows gives width -5
    and height 0. *)
Lemma degenerate_sizes_are_accepted :
  width (NewGame 10 5) = 0 /\
  exists g', resize (NewGame 14 4) 5 0 = Some g' /\ width g' = -5 /\ height g' = 0.
Proof.
  split; [by vm_compute|]. eexists. split; [apply resize_eq|]. by vm_compute.
Qed.

(** C9 (amended): after [NewGame] and after every [resize] the width is
    the width of the terminal less the 10 columns of the status margin
    and the height is the height of the terminal, whatever they are; both
    are at least 1 exactly when the terminal has more than 10 columns and
    at least one row. *)
Theorem dimensions_follow_the_terminal g sw sh :
  0 <= sw <= GoInt.max_int -> stateWidth g = 10 ->
  (width (NewGame sw sh) = sw - 10 /\ height (NewGame sw sh) = sh /\
   stateWidth (NewGame sw sh) = 10) /\
  exists g', resize g sw sh = Some g' /\
             width g' = sw - 10 /\ height g' = sh /\ stateWidth g' = 10 /\
             (1 <= width g' /\ 1 <= height g' <-> 11 <= sw /\ 1 <= sh).
Proof.
  intros Hsw Hk. split.
  - cbn [NewGame width height stateWidth]. rewrite sub_id by int_range. done.
  - eexists. split; [apply resize_eq|]. cbn [width height stateWidth].
    rewrite Hk, sub_id by int_range. repeat split; try done; lia.
Qed.

Lemma dimensions_follow_the_terminal_witness :
  (0 <= 10 <= GoInt.max_int /\ stateWidth blinker = 10) /\
  (width (NewGame 10 0) = 10 - 10 /\ height (NewGame 10 0) = 0 /\
   stateWidth (NewGame 10 0) = 10) /\
  exists g', resize blinker 10 0 = Some g' /\
             width g' = 10 - 10 /\ height g' = 0 /\ stateWidth g' = 10 /\
             (1 <= width g' /\ 1 <= height g' <-> 11 <= 10 /\ 1 <= 0).
Proof.
  assert (0 <= 10 <= GoInt.max_int) as Hsw by (by vm_compute).
  assert (stateWidth blinker = 10) as Hk by (by vm_compute).
  split; [exact (conj Hsw Hk)|].
  exact (dimensions_follow_the_terminal blinker 10 0 Hsw Hk).
Defined.

(** * Further properties *)

(** ** Building the field *)

(** X1: [makeNewMap w h] has exactly the rows [0 .. h-1] (none for
    [h <= 0]), every row is an empty map, and so every cell reads as
    dead; [w] has no effect on the contents. *)
Theorem makeNewMap_rows w h y :
  (is_Some (makeNewMap w h !! y) <-> 0 <= y < h) /\
  (forall row, makeNewMap w h !! y = Some row -> row = ∅) /\
  (forall x, field_get (makeNewMap w h) y x = GoByte.zero).
Proof.
  rewrite makeNewMap_lookup. split; [|split].
  - case_decide as Hd.
    + split; [done | eauto].
    + split; [by intros [? ?] | done].
  - intros row. case_decide; [|done]. by intros [= <-].
  - intros x. apply makeNewMap_get.
Qed.

Lemma NewGame_rows_exact sw sh : rows_exact (NewGame sw sh).
Proof.
  intros y. cbn [NewGame field height]. rewrite makeNewMap_lookup.
  case_decide as Hd.
  - split; [done | eauto].
  - split; [by intros [? ?] | done].
Qed.

(** X2: a new game is paused at generation 0 with delay 500 and an
    untouched screen; its field has the rows of the grid and nothing
    else, no entry outside the grid, and every cell is dead. *)
Theorem NewGame_fresh sw sh :
  let g := NewGame sw sh in
  (grid_domain g /\ rows_exact g /\ forall x y, cell g x y = GoByte.zero) /\
  evolution g = false /\ generation g = 0 /\ delay g = 500 /\
  stateWidth g = 10 /\ stop g = false /\ screen g = [].
Proof.
  intros g. split; [|done]. split; [|split].
  - split; [apply NewGame_rows_ok | apply NewGame_no_stray].
  - apply NewGame_rows_exact.
  - intros x y. apply makeNewMap_get.
Qed.

(** ** One generation, in general *)

Lemma sum_states_torus_ext g1 g2 x y ds :
  same_grid g1 g2 -> 0 < width g1 -> 0 < height g1 ->
  sum_states g1 (map (torus g1 x y) ds) = sum_states g2 (map (torus g2 x y) ds).
Proof.
  intros (Hw & Hh & Hc) Hpw Hph.
  induction ds as [| d ds IH]; [done|].
  cbn [map sum_states foldr]. fold (sum_states g1 (map (torus g1 x y) ds)).
  fold (sum_states g2 (map (torus g2 x y) ds)). rewrite IH.
  unfold torus. cbn [fst snd]. rewrite <- Hw, <- Hh.
  rewrite Hc; [done | by apply Z.mod_pos_bound | by apply Z.mod_pos_bound].
Qed.

Lemma nextCellState_ext g1 g2 x y :
  same_grid g1 g2 ->
  0 < width g1 <= GoInt.max_int -> 0 < height g1 <= GoInt.max_int ->
  in_grid g1 x y ->
  nextCellState g1 x y = nextCellState g2 x y.
Proof.
  intros Hs Hw Hh Hxy. pose proof Hs as (Ew & Eh & Hc).
  assert (in_grid g2 x y) as Hxy2 by (unfold in_grid in *; lia).
  unfold nextCellState.
  rewrite (neigbors_blockCount g1), (neigbors_blockCount g2) by (done || lia).
  unfold blockCount. rewrite (sum_states_torus_ext g1 g2) by (done || lia).
  fold (cell g1 x y). fold (cell g2 x y).
  destruct Hxy as [Hx Hy]. by rewrite (Hc x y Hx Hy).
Qed.

(** X3: the next generation of the grid depends on the cells of the
    grid only.  Two games of the same (positive) size whose fields agree
    on the grid, whatever entries they hold outside it, agree on the
    grid after [tick]. *)
Theorem tick_ignores_entries_outside g1 g2 :
  same_grid g1 g2 ->
  0 < width g1 <= GoInt.max_int -> 0 < height g1 <= GoInt.max_int ->
  exists g1' g2', tick g1 = Some g1' /\ tick g2 = Some g2' /\ same_grid g1' g2'.
Proof.
  intros Hs Hw Hh. pose proof Hs as (Ew & Eh & Hc).
  do 2 eexists. split; [apply tick_eq|]. split; [apply tick_eq|].
  split; [done|]. split; [done|]. cbn [width height].
  intros x y Hx Hy. unfold cell. cbn [field]. rewrite !tick_field_get.
  rewrite <- Ew, <- Eh. rewrite !decide_True by lia.
  by apply nextCellState_ext.
Qed.

Lemma flat_map_nil {A B} (f : A -> list B) (l : list A) :
  (forall a, f a = []) -> flat_map f l = [].
Proof. intros Hf. induction l as [| a l IH]; [done|]. cbn. by rewrite Hf, IH. Qed.

(** X4: no birth without live cells.  When every cell reads as dead,
    [tick] leaves every cell dead and makes no call on the screen. *)
Theorem tick_all_dead g :
  (forall x y, cell g x y = GoByte.zero) ->
  exists g', tick g = Some g' /\
             (forall x y, cell g' x y = GoByte.zero) /\ screen g' = screen g.
Proof.
  intros Hdead. eexists. split; [apply tick_eq|]. split.
  - intros x y. unfold cell. cbn [field]. rewrite tick_field_get.
    case_decide; [by apply nextCellState_all_dead | done].
  - cbn [screen]. unfold tick_draws. rewrite flat_map_nil; [by rewrite app_nil_r|].
    intros y. apply flat_map_nil. intros x. unfold tick_cell_draw.
    by rewrite nextCellState_all_dead, Hdead.
Qed.

Lemma tick_all_dead_witness :
  (forall x y, cell (NewGame 14 4) x y = GoByte.zero) /\
  exists g', tick (NewGame 14 4) = Some g' /\
             (forall x y, cell g' x y = GoByte.zero) /\ screen g' = screen (NewGame 14 4).
Proof.
  assert (forall x y, cell (NewGame 14 4) x y = GoByte.zero) as Hdead
    by (intros x y; apply makeNewMap_get).
  split; [exact Hdead|]. exact (tick_all_dead (NewGame 14 4) Hdead).
Defined.

(** X5: on a grid of one cell every neighbour is the cell itself, the
    sum is nine times its state, never 3 or 4, and the cell is dead after
    [tick] whatever it was. *)
Theorem single_cell_dies g :
  width g = 1 -> height g = 1 ->
  neigbors g 0 0 = 9 * GoByte.to_int (cell g 0 0) /\
  nextCellState g 0 0 = GoByte.zero /\
  exists g', tick g = Some g' /\ cell g' 0 0 = GoByte.zero.
Proof.
  intros Hw Hh.
  assert (neigbors g 0 0 = 9 * GoByte.to_int (cell g 0 0)) as Hn.
  { rewrite neigbors_blockCount by (unfold in_grid, GoInt.max_int; lia).
    unfold blockCount, sum_states, block, torus. cbn [map foldr fst snd].
    rewrite Hw, Hh, !Z.mod_1_r. lia. }
  assert (nextCellState g 0 0 = GoByte.zero) as Hz.
  { unfold nextCellState. rewrite Hn.
    pose proof (to_int_bounds (cell g 0 0)).
    destruct (Z.eqb_spec (9 * GoByte.to_int (cell g 0 0)) 3); [lia|].
    destruct (Z.eqb_spec (9 * GoByte.to_int (cell g 0 0)) 4); [lia | done]. }
  split; [done|]. split; [done|].
  eexists. split; [apply tick_eq|]. unfold cell at 1. cbn [field].
  rewrite tick_field_get, decide_True by lia. done.
Qed.

Lemma single_cell_dies_witness :
  (width (NewGame 11 1) = 1 /\ height (NewGame 11 1) = 1) /\
  neigbors (NewGame 11 1) 0 0 = 9 * GoByte.to_int (cell (NewGame 11 1) 0 0) /\
  nextCellState (NewGame 11 1) 0 0 = GoByte.zero /\
  exists g', tick (NewGame 11 1) = Some g' /\ cell g' 0 0 = GoByte.zero.
Proof.
  assert (width (NewGame 11 1) = 1) as Hw by (by vm_compute).
  assert (height (NewGame 11 1) = 1) as Hh by (by vm_compute).
  split; [exact (conj Hw Hh)|]. exact (single_cell_dies (NewGame 11 1) Hw Hh).
Defined.

Lemma tick_field_rows_exact g a b c s t n k :
  rows_exact (mkGame a (height g) b c (tick_field g) s t n k).
Proof.
  intros y. cbn [field height]. rewrite tick_field_lookup.
  case_decide as Hd.
  - split; [done | eauto].
  - split; [by intros [? ?] | done].
Qed.

(** X6: [tick] never panics.  It leaves the size, the mode, the delay,
    the stop flag and the margin as they are, adds one to the generation
    (in 64 bits), and every cell of the grid holds the next state
    computed from the field as it was before the call. *)
Theorem tick_total g :
  exists g', tick g = Some g' /\
    (forall x y, in_grid g x y -> cell g' x y = nextCellState g x y) /\
    generation g' = GoInt.add (generation g) 1 /\
    width g' = width g /\ height g' = height g /\ evolution g' = evolution g /\
    delay g' = delay g /\ stop g' = stop g /\ stateWidth g' = stateWidth g /\
    rows_exact g'.
Proof.
  eexists. split; [apply tick_eq|]. split.
  - intros x y [Hx Hy]. unfold cell at 1. cbn [field].
    rewrite tick_field_get. by rewrite decide_True by lia.
  - do 7 (split; [reflexivity|]). apply tick_field_rows_exact.
Qed.

Lemma flat_map_pairs {B} (f : Z * Z -> list B) (xs ys : list Z) :
  flat_map f (flat_map (fun y => map (fun x => (x, y)) xs) ys)
  = flat_map (fun y => flat_map (fun x => f (x, y)) xs) ys.
Proof.
  induction ys as [| y ys IH]; [done|]. cbn [flat_map].
  rewrite flat_map_app, IH. f_equal.
  clear. induction xs as [| x xs IH]; [done|]. cbn [map flat_map]. by rewrite IH.
Qed.

Lemma flat_map_ext_in {A B} (f h : A -> list B) (l : list A) :
  (forall a, a ∈ l -> f a = h a) -> flat_map f l = flat_map h l.
Proof.
  induction l as [| a l IH]; intros Hfh; [done|]. cbn [flat_map].
  rewrite (Hfh a) by (rewrite elem_of_cons; tauto). rewrite IH; [done|].
  intros a' Ha'. apply Hfh. rewrite elem_of_cons. tauto.
Qed.

Lemma elem_of_tick_coords g x y :
  (x, y) ∈ tick_coords g <-> 0 <= y < height g /\ 0 <= x <= width g.
Proof.
  unfold tick_coords. rewrite elem_of_flat_map. split.
  - intros (y' & Hy' & Hin). apply list_elem_of_In, in_map_iff in Hin as (x' & E & Hx').
    injection E as -> ->. apply list_elem_of_In, elem_of_seqZ in Hx'.
    apply elem_of_seqZ in Hy'. lia.
  - intros [Hy Hx]. exists y. split; [apply elem_of_seqZ; lia|].
    apply list_elem_of_In, in_map_iff. exists x. split; [done|].
    apply list_elem_of_In, elem_of_seqZ. lia.
Qed.

Lemma NoDup_pairs (xs ys : list Z) :
  NoDup xs -> NoDup ys -> NoDup (flat_map (fun y => map (fun x => (x, y)) xs) ys).
Proof.
  intros Hxs. induction 1 as [| y ys Hy Hys IH]; cbn [flat_map]; [constructor|].
  apply NoDup_app. split; [|split; [|exact IH]].
  - change (map (fun x => (x, y)) xs) with ((fun x => (x, y)) <$> xs).
    apply NoDup_fmap_2; [|done]. by intros x1 x2 [= ->].
  - intros [x y'] Hin Hin'.
    apply list_elem_of_In, in_map_iff in Hin as (x' & E & _). injection E as -> ->.
    apply elem_of_flat_map in Hin' as (y'' & Hy'' & Hin').
    apply list_elem_of_In, in_map_iff in Hin' as (x'' & E & _). injection E as -> ->.
    done.
Qed.

(** X7: the calls [tick] makes on the screen.  Going through the rows
    of the grid and, in each, through the columns [0 .. width] (the
    column [width] included), each coordinate once, it makes one
    [drawCell] with the new value for every coordinate whose stored value
    has changed, and no other call: the list of its calls is this, in
    this order. *)
Theorem tick_draws_exactly g :
  exists g' calls, tick g = Some g' /\ screen g' = screen g ++ calls /\
    calls = flat_map (fun c =>
                        if GoByte.eqb (cell g' (fst c) (snd c)) (cell g (fst c) (snd c))
                        then []
                        else [draw_call g (fst c) (snd c) (cell g' (fst c) (snd c))])
                     (tick_coords g) /\
    NoDup (tick_coords g) /\
    (forall x y, (x, y) ∈ tick_coords g <-> 0 <= y < height g /\ 0 <= x <= width g) /\
    forall c, c ∈ calls <->
      exists x y, (0 <= y < height g /\ 0 <= x <= width g) /\
                  cell g' x y <> cell g x y /\
                  c = draw_call g x y (cell g' x y).
Proof.
  do 2 eexists. split; [apply tick_eq|]. split; [done|].
  assert (forall x y, 0 <= y < height g /\ 0 <= x <= width g ->
            field_get (tick_field g) y x = nextCellState g x y) as Hget.
  { intros x y Hxy. rewrite tick_field_get. by rewrite decide_True by lia. }
  change (cell (mkGame ?a ?b ?e ?d ?f ?s ?t ?n ?k)) with (fun x y => field_get f y x).
  cbn beta.
  split; [|split; [|split]].
  - unfold tick_draws, tick_coords. rewrite flat_map_pairs. cbn [fst snd].
    apply flat_map_ext_in. intros y Hy. apply flat_map_ext_in. intros x Hx.
    apply elem_of_seqZ in Hx, Hy. unfold tick_cell_draw.
    by rewrite (Hget x y) by lia.
  - apply NoDup_pairs; apply NoDup_seqZ.
  - intros x y. apply elem_of_tick_coords.
  - intros c. rewrite elem_of_tick_draws.
    split; intros (x & y & Hxy & Hne & ->); exists x, y.
    + rewrite (Hget x y Hxy). split; [exact Hxy | split; [exact Hne | reflexivity]].
    + rewrite (Hget x y Hxy) in Hne |- *.
      split; [exact Hxy | split; [exact Hne | reflexivity]].
Qed.

(** A game with an entry outside its grid and a game without, holding
    the same cells on the grid. *)
Lemma same_grid_example :
  same_grid column3_ticked
            (default (NewGame 14 4)
                     (run (NewGame 14 4)
                          [OpReverseCell 0 1; OpReverseCell 2 1; OpReverseCell 3 1])).
Proof.
  split; [by vm_compute|]. split; [by vm_compute|].
  change (width column3_ticked) with 4. change (height column3_ticked) with 4.
  intros x y Hx Hy.
  assert (x = 0 \/ x = 1 \/ x = 2 \/ x = 3) as Hxs by lia.
  assert (y = 0 \/ y = 1 \/ y = 2 \/ y = 3) as Hys by lia.
  destruct Hxs as [-> | [-> | [-> | ->]]], Hys as [-> | [-> | [-> | ->]]];
    vm_compute; reflexivity.
Defined.

Lemma tick_ignores_entries_outside_witness :
  let g2 := default (NewGame 14 4)
                    (run (NewGame 14 4)
                         [OpReverseCell 0 1; OpReverseCell 2 1; OpReverseCell 3 1]) in
  (same_grid column3_ticked g2 /\
   0 < width column3_ticked <= GoInt.max_int /\
   0 < height column3_ticked <= GoInt.max_int) /\
  cell column3_ticked 4 1 <> cell g2 4 1 /\
  exists g1' g2', tick column3_ticked = Some g1' /\ tick g2 = Some g2' /\
                  same_grid g1' g2'.
Proof.
  intros g2.
  assert (0 < width column3_ticked <= GoInt.max_int) as Hw by (by vm_compute).
  assert (0 < height column3_ticked <= GoInt.max_int) as Hh by (by vm_compute).
  split; [exact (conj same_grid_example (conj Hw Hh))|].
  split; [by vm_compute|].
  exact (tick_ignores_entries_outside column3_ticked g2 same_grid_example Hw Hh).
Defined.

(** ** Clicks, in general *)

Lemma reverseCell_None g x y : reverseCell g x y = None <-> field g !! y = None.
Proof.
  unfold reverseCell, field_set. destruct (field g !! y); split; done.
Qed.

Lemma reverseCell_Some g x y :
  is_Some (field g !! y) -> is_Some (reverseCell g x y).
Proof. intros [row E]. rewrite (reverseCell_eq g x y row E). eauto. Qed.

Lemma reverseCell_rows g g' x y y' :
  reverseCell g x y = Some g' -> is_Some (field g' !! y') <-> is_Some (field g !! y').
Proof.
  unfold reverseCell.
  destruct (field_set (field g) y x _) as [f|] eqn:E; [|done].
  intros [= <-]. rewrite drawCell_call. cbn [field call with_screen with_field].
  apply (field_set_rows _ _ _ _ _ y' E).
Qed.

Lemma apply_op_rows_exact g op g' :
  apply_op g op = Some g' -> rows_exact g -> rows_exact g'.
Proof.
  destruct op as [| x y | w h | | |]; cbn [apply_op].
  - rewrite tick_eq. intros [= <-] _. apply tick_field_rows_exact.
  - intros E Hr y'. rewrite (reverseCell_rows g g' x y y' E).
    destruct (reverseCell_frame _ _ _ _ E) as (_ & -> & _). apply Hr.
  - rewrite resize_eq. intros [= <-] _ y. cbn [field height].
    rewrite resize_field_lookup. case_decide as Hd.
    + split; [done | eauto].
    + split; [by intros [? ?] | done].
  - intros [= <-]. unfold switchMode. by destruct (evolution g).
  - by intros [= <-].
  - by intros [= <-].
Qed.

Lemma apply_op_stateWidth g op g' :
  apply_op g op = Some g' -> stateWidth g' = stateWidth g /\ stop g' = stop g.
Proof.
  destruct op as [| x y | w h | | |]; cbn [apply_op].
  - rewrite tick_eq. by intros [= <-].
  - intros E. by destruct (reverseCell_frame _ _ _ _ E) as (_ & _ & _ & _ & -> & _ & -> & _).
  - rewrite resize_eq. by intros [= <-].
  - intros [= <-]. unfold switchMode. by destruct (evolution g).
  - by intros [= <-].
  - by intros [= <-].
Qed.

Lemma run_reachable ops : forall g g',
  run g ops = Some g' ->
  rows_exact g -> binary g ->
  rows_exact g' /\ binary g' /\ stateWidth g' = stateWidth g /\ stop g' = stop g.
Proof.
  induction ops as [| op ops IH]; intros g g'; cbn [run].
  - by intros [= <-].
  - destruct (apply_op g op) as [g1|] eqn:E; [|done].
    intros Hrun Hr Hb.
    destruct (apply_op_stateWidth g op g1 E) as [<- <-].
    apply (IH g1 g' Hrun).
    + by apply (apply_op_rows_exact g op).
    + by apply (apply_op_binary g op).
Qed.

(** X8: whatever operations the program has gone through since
    [NewGame], its field has exactly the rows of the grid, its cells hold
    0 or 1, the margin is 10 columns wide and the stop flag is down. *)
Theorem reachable_invariants sw sh ops g :
  run (NewGame sw sh) ops = Some g ->
  rows_exact g /\ rows_ok g /\ binary g /\ stateWidth g = 10 /\ stop g = false.
Proof.
  intros Hrun.
  destruct (run_reachable ops _ _ Hrun (NewGame_rows_exact sw sh) (NewGame_binary sw sh))
    as (Hr & Hb & Hk & Hs).
  split; [done|]. split; [|done]. intros y Hy. by apply Hr.
Qed.

Lemma reachable_invariants_witness :
  run (NewGame 14 4) (session1 ++ session2) = Some after_session2 /\
  rows_exact after_session2 /\ rows_ok after_session2 /\ binary after_session2 /\
  stateWidth after_session2 = 10 /\ stop after_session2 = false.
Proof.
  assert (run (NewGame 14 4) (session1 ++ session2) = Some after_session2) as E
    by (vm_compute; reflexivity).
  split; [exact E|]. exact (reachable_invariants 14 4 _ _ E).
Defined.

(** X9: in a state the program has reached, a click panics exactly when
    its row is outside the grid; the column plays no part (a cell of a
    column outside the grid is stored like any other). *)
Theorem reverseCell_panics_iff_row_outside sw sh ops g x y :
  run (NewGame sw sh) ops = Some g ->
  reverseCell g x y = None <-> ~ (0 <= y < height g).
Proof.
  intros Hrun.
  destruct (run_reachable ops _ _ Hrun (NewGame_rows_exact sw sh) (NewGame_binary sw sh))
    as (Hr & _).
  rewrite reverseCell_None. rewrite <- (Hr y). apply eq_None_not_Some.
Qed.

Lemma reverseCell_panics_iff_row_outside_witness :
  run (NewGame 14 4) session1 = Some after_session1 /\
  (reverseCell after_session1 100 4 = None <-> ~ (0 <= 4 < height after_session1)) /\
  (reverseCell after_session1 100 3 = None <-> ~ (0 <= 3 < height after_session1)).
Proof.
  assert (run (NewGame 14 4) session1 = Some after_session1) as E
    by (vm_compute; reflexivity).
  split; [exact E|]. split.
  - exact (reverseCell_panics_iff_row_outside 14 4 _ _ 100 4 E).
  - exact (reverseCell_panics_iff_row_outside 14 4 _ _ 100 3 E).
Defined.

(** X10: one click.  When row [y] is in the field, [reverseCell] at
    [(x, y)], for any column [x], succeeds, replaces the cell by its
    exclusive or with 1, leaves every other cell as it reads, and draws
    the new state once at screen column [x + stateWidth]: an [X] when the
    new state is 1, a blank otherwise.  Nothing else changes. *)
Theorem reverseCell_one_cell g x y :
  is_Some (field g !! y) ->
  exists g', reverseCell g x y = Some g' /\
    cell g' x y = GoByte.xor (cell g x y) GoByte.one /\
    (forall x' y', (x', y') <> (x, y) -> cell g' x' y' = cell g x' y') /\
    screen g' = screen g ++
                [SetContent (GoInt.add x (stateWidth g)) y
                   (if GoByte.eqb (cell g' x y) GoByte.one then "X"%char else " "%char)] /\
    (width g' = width g /\ height g' = height g /\ evolution g' = evolution g /\
     delay g' = delay g /\ stop g' = stop g /\ generation g' = generation g /\
     stateWidth g' = stateWidth g).
Proof.
  intros Hrow. destruct (reverseCell_Some g x y Hrow) as [g' E]. exists g'.
  destruct (reverseCell_frame g g' x y E) as (Hw & Hh & He & Hd & Hs & Hg & Hk & Hsc).
  split; [done|]. split; [|split; [|split]].
  - rewrite (reverseCell_cell g g' x y x y E). by rewrite decide_True.
  - intros x' y' Hne. rewrite (reverseCell_cell g g' x y x' y' E).
    by rewrite decide_False.
  - exact Hsc.
  - by repeat split.
Qed.

Lemma reverseCell_one_cell_witness :
  is_Some (field blinker !! 2) /\
  exists g', reverseCell blinker 7 2 = Some g' /\
    cell g' 7 2 = GoByte.xor (cell blinker 7 2) GoByte.one /\
    (forall x' y', (x', y') <> (7, 2) -> cell g' x' y' = cell blinker x' y') /\
    screen g' = screen blinker ++
                [SetContent (GoInt.add 7 (stateWidth blinker)) 2
                   (if GoByte.eqb (cell g' 7 2) GoByte.one then "X"%char else " "%char)] /\
    (width g' = width blinker /\ height g' = height blinker /\
     evolution g' = evolution blinker /\
     delay g' = delay blinker /\ stop g' = stop blinker /\
     generation g' = generation blinker /\
     stateWidth g' = stateWidth blinker).
Proof.
  assert (is_Some (field blinker !! 2)) as Hrow.
  { apply (run_invariants _ _ _ blinker_reached);
      [split; [apply NewGame_rows_ok | apply NewGame_binary] | by vm_compute]. }
  split; [exact Hrow|]. exact (reverseCell_one_cell blinker 7 2 Hrow).
Defined.

(** X11: clicks on two different cells commute: in either order both
    succeed and every cell reads the same afterwards. *)
Theorem reverseCell_commute g x1 y1 x2 y2 :
  is_Some (field g !! y1) -> is_Some (field g !! y2) -> (x1, y1) <> (x2, y2) ->
  exists ga ga' gb gb',
    reverseCell g x1 y1 = Some ga /\ reverseCell ga x2 y2 = Some ga' /\
    reverseCell g x2 y2 = Some gb /\ reverseCell gb x1 y1 = Some gb' /\
    forall x y, cell ga' x y = cell gb' x y.
Proof.
  intros H1 H2 Hne.
  destruct (reverseCell_Some g x1 y1 H1) as [ga Ea].
  destruct (reverseCell_Some g x2 y2 H2) as [gb Eb].
  assert (is_Some (field ga !! y2)) as H2a by (by rewrite (reverseCell_rows g ga x1 y1 y2 Ea)).
  assert (is_Some (field gb !! y1)) as H1b by (by rewrite (reverseCell_rows g gb x2 y2 y1 Eb)).
  destruct (reverseCell_Some ga x2 y2 H2a) as [ga' Ea'].
  destruct (reverseCell_Some gb x1 y1 H1b) as [gb' Eb'].
  exists ga, ga', gb, gb'. repeat (split; [done|]).
  intros x y.
  rewrite (reverseCell_cell ga ga' x2 y2 x y Ea'), (reverseCell_cell gb gb' x1 y1 x y Eb').
  rewrite (reverseCell_cell g ga x1 y1 x y Ea), (reverseCell_cell g gb x2 y2 x y Eb).
  rewrite (reverseCell_cell g ga x1 y1 x2 y2 Ea), (reverseCell_cell g gb x2 y2 x1 y1 Eb).
  rewrite (decide_False (P := (x2, y2) = (x1, y1))) by congruence.
  rewrite (decide_False (P := (x1, y1) = (x2, y2))) by congruence.
  destruct (decide ((x, y) = (x2, y2))) as [E2 | N2],
           (decide ((x, y) = (x1, y1))) as [E1 | N1]; try done.
  congruence.
Qed.

Lemma reverseCell_commute_witness :
  (is_Some (field blinker !! 0) /\ is_Some (field blinker !! 2) /\
   (0, 0) <> (2, 2)) /\
  exists ga ga' gb gb',
    reverseCell blinker 0 0 = Some ga /\ reverseCell ga 2 2 = Some ga' /\
    reverseCell blinker 2 2 = Some gb /\ reverseCell gb 0 0 = Some gb' /\
    forall x y, cell ga' x y = cell gb' x y.
Proof.
  assert (rows_ok blinker) as Hrows.
  { apply (run_invariants _ _ _ blinker_reached).
    split; [apply NewGame_rows_ok | apply NewGame_binary]. }
  assert (is_Some (field blinker !! 0)) as H1 by (apply Hrows; by vm_compute).
  assert (is_Some (field blinker !! 2)) as H2 by (apply Hrows; by vm_compute).
  assert ((0, 0) <> (2, 2)) as Hne by discriminate.
  split; [exact (conj H1 (conj H2 Hne))|].
  exact (reverseCell_commute blinker 0 0 2 2 H1 H2 Hne).
Defined.

(** X12: the redraw of a click lands where the click was.  A click with
    button 1 at screen position [(sx, y)], right of the margin and on a
    row of the field, flips the cell [(sx - stateWidth, y)], draws its
    new state at [(sx, y)] itself and shows the screen. *)
Theorem click_redraws_the_clicked_position g buttons sx y :
  Z.land buttons Button1 <> 0 -> GoInt.in_range sx -> 0 <= stateWidth g <= sx ->
  is_Some (field g !! y) ->
  exists g', handleEvent g (EventMouse buttons sx y) = Some (g', Continue) /\
    cell g' (sx - stateWidth g) y = GoByte.xor (cell g (sx - stateWidth g) y) GoByte.one /\
    screen g' = screen g ++
                [SetContent sx y
                   (if GoByte.eqb (cell g' (sx - stateWidth g) y) GoByte.one
                    then "X"%char else " "%char);
                 Show].
Proof.
  intros Hb Hsx Hsw [row Hrow]. cbn [handleEvent].
  destruct (Z.eqb_spec (Z.land buttons Button1) 0); [done|]. cbn [negb].
  destruct (Z.geb_spec sx (stateWidth g)); [|lia].
  rewrite sub_id by int_range.
  rewrite (reverseCell_eq g (sx - stateWidth g) y row Hrow).
  eexists. split; [reflexivity|].
  change (cell (call (call (with_field g ?f) ?a) ?b) ?x' ?y') with (field_get f y' x').
  rewrite field_get_insert. split; [reflexivity|].
  cbn [field call with_screen with_field screen].
  unfold draw_call. rewrite add_id by int_range.
  replace (sx - stateWidth g + stateWidth g) with sx by lia.
  by rewrite <- app_assoc.
Qed.

Lemma click_redraws_the_clicked_position_witness :
  (Z.land Button1 Button1 <> 0 /\ GoInt.in_range 12 /\ 0 <= stateWidth blinker <= 12 /\
   is_Some (field blinker !! 2)) /\
  exists g', handleEvent blinker (EventMouse Button1 12 2) = Some (g', Continue) /\
    cell g' (12 - stateWidth blinker) 2
    = GoByte.xor (cell blinker (12 - stateWidth blinker) 2) GoByte.one /\
    screen g' = screen blinker ++
                [SetContent 12 2
                   (if GoByte.eqb (cell g' (12 - stateWidth blinker) 2) GoByte.one
                    then "X"%char else " "%char);
                 Show].
Proof.
  assert (Z.land Button1 Button1 <> 0) as Hb by discriminate.
  assert (GoInt.in_range 12) as Hx by (by vm_compute).
  assert (0 <= stateWidth blinker <= 12) as Hsw by (by vm_compute).
  assert (is_Some (field blinker !! 2)) as Hrow.
  { apply (run_invariants _ _ _ blinker_reached);
      [split; [apply NewGame_rows_ok | apply NewGame_binary] | by vm_compute]. }
  split; [exact (conj Hb (conj Hx (conj Hsw Hrow)))|].
  exact (click_redraws_the_clicked_position blinker Button1 12 2 Hb Hx Hsw Hrow).
Defined.

(** ** The status panel and the keys *)

Lemma call_with_screen g s c : call (with_screen g s) c = with_screen g (s ++ [c]).
Proof. reflexivity. Qed.

Lemma blank_fold l : forall g s,
  foldl (fun g i => foldl (fun g (_ : Z) => call g (SetContent i 0 " "%char)) g (seqZ 0 3))
        (with_screen g s) l
  = with_screen g (s ++ flat_map (fun i => [SetContent i 0 " "%char;
                                            SetContent i 0 " "%char;
                                            SetContent i 0 " "%char]) l).
Proof.
  induction l as [| i l IH]; intros g s; cbn [foldl flat_map].
  - by rewrite app_nil_r.
  - change (seqZ 0 3) with [0; 1; 2]. cbn [foldl].
    rewrite !call_with_screen, IH. by rewrite <- !app_assoc.
Qed.

Lemma drawState_eq g :
  drawState g = with_screen g (screen g ++ blank_calls g ++ status_calls g).
Proof.
  pose proof (blank_fold (seqZ 0 (stateWidth g + 1)) g (screen g)) as Hblank.
  rewrite with_screen_id in Hblank.
  unfold drawState, blank_calls, status_calls. cbv zeta. rewrite !Hblank.
  rewrite !call_with_screen. cbn [with_screen width height evolution generation].
  by rewrite <- !app_assoc.
Qed.

Lemma elem_of_blank_calls g c :
  c ∈ blank_calls g <-> exists i, 0 <= i <= stateWidth g /\ c = SetContent i 0 " "%char.
Proof.
  unfold blank_calls. rewrite elem_of_flat_map. split.
  - intros (i & Hi & Hc). apply elem_of_seqZ in Hi. exists i. split; [lia|].
    rewrite !elem_of_cons, elem_of_nil in Hc. tauto.
  - intros (i & Hi & ->). exists i. split; [apply elem_of_seqZ; lia|].
    rewrite !elem_of_cons. tauto.
Qed.

(** X13: [drawState] changes nothing but the screen.  It blanks the
    cells [(i, 0)] for [i] in [0 .. stateWidth], each three times, and
    then prints the size, the mode and the generation on rows 0, 1 and
    2: no cell of rows 1 and 2 is ever blanked before the text goes
    over it. *)
Theorem drawState_calls g :
  drawState g = with_screen g (screen g ++ blank_calls g ++ status_calls g) /\
  (forall x y glyph,
     SetContent x y glyph ∈ blank_calls g ++ status_calls g ->
     y = 0 /\ 0 <= x <= stateWidth g /\ glyph = " "%char) /\
  (forall i, 0 <= i <= stateWidth g -> SetContent i 0 " "%char ∈ blank_calls g).
Proof.
  split; [apply drawState_eq|]. split.
  - intros x y glyph. rewrite elem_of_app. intros [Hin | Hin].
    + apply elem_of_blank_calls in Hin as (i & Hi & [= -> -> ->]). done.
    + unfold status_calls in Hin. rewrite !elem_of_cons, elem_of_nil in Hin.
      destruct Hin as [Hin | [Hin | [Hin | []]]]; discriminate Hin.
  - intros i Hi. apply elem_of_blank_calls. eauto.
Qed.

(** X14: the space key switches the mode and prints the status with
    the new mode; size, field, generation and delay stay as they are, and
    the polling loop goes on. *)
Theorem space_key_switches_mode g :
  exists g', handleEvent g (EventKey KeyRune " "%char) = Some (g', Continue) /\
    evolution g' = negb (evolution g) /\
    (field g' = field g /\ width g' = width g /\ height g' = height g /\
     generation g' = generation g /\ delay g' = delay g /\ stop g' = stop g) /\
    screen g' = screen g ++ blank_calls g ++
                [EmitStr 0 0 (TxtSize (width g) (height g));
                 EmitStr 0 1 (TxtState (negb (evolution g)));
                 EmitStr 0 2 (TxtGen (generation g));
                 Show].
Proof.
  eexists. cbn [handleEvent]. change (Ascii.eqb " " " ") with true. cbv iota.
  split; [reflexivity|]. rewrite drawState_eq.
  unfold switchMode, call, status_calls, blank_calls.
  destruct (evolution g) eqn:E;
    cbn [with_screen with_evolution width height evolution delay field screen stop
         generation stateWidth negb];
    (split; [done|]); (split; [done|]); by rewrite <- !app_assoc.
Qed.

(** X15: no key touches the game itself.  Every key event is handled
    without panic and leaves field, size and generation as they are; the
    loop ends exactly on Escape, Enter, [q] and [Q], and then only the
    stop flag has changed. *)
Theorem key_events_keep_the_game g k r :
  exists g' c, handleEvent g (EventKey k r) = Some (g', c) /\
    (field g' = field g /\ width g' = width g /\ height g' = height g /\
     generation g' = generation g /\ stateWidth g' = stateWidth g) /\
    (c = Break <-> quit_key k r = true) /\
    (quit_key k r = true -> g' = with_stop g true) /\
    (quit_key k r = false -> stop g' = stop g).
Proof.
  destruct k; cbn [handleEvent quit_key].
  - do 2 eexists. split; [reflexivity|]. by repeat split.
  - do 2 eexists. split; [reflexivity|]. by repeat split.
  - do 2 eexists. split; [reflexivity|]. by repeat split.
  - do 2 eexists. split; [reflexivity|]. by repeat split.
  - destruct (Ascii.eqb r " ") eqn:Es.
    + apply Ascii.eqb_eq in Es as ->.
      change (Ascii.eqb " " "q" || Ascii.eqb " " "Q") with false.
      do 2 eexists. split; [reflexivity|]. rewrite drawState_eq.
      unfold switchMode. destruct (evolution g); by repeat split.
    + destruct (Ascii.eqb r "q" || Ascii.eqb r "Q");
        do 2 eexists; (split; [reflexivity|]); by repeat split.
  - do 2 eexists. split; [reflexivity|]. by repeat split.
Qed.

(** ** The delay, in general *)

Lemma wrap_wrap_add a b : GoInt.wrap (GoInt.wrap a + b) = GoInt.wrap (a + b).
Proof.
  unfold GoInt.wrap. f_equal.
  replace ((a + 2 ^ 63) mod 2 ^ 64 - 2 ^ 63 + b + 2 ^ 63)
    with ((a + 2 ^ 63) mod 2 ^ 64 + b) by lia.
  rewrite Zplus_mod_idemp_l. f_equal. lia.
Qed.

Lemma with_delay_id g : with_delay g (delay g) = g.
Proof. by destruct g. Qed.

Lemma with_delay_twice g d1 d2 : with_delay (with_delay g d1) d2 = with_delay g d2.
Proof. reflexivity. Qed.

(** X16: slowing down and then speeding up restores the game, for every
    non-negative delay, even when the sum passes the largest 64-bit value
    in between; speeding up and then slowing down restores it exactly
    when the delay was at least 50 (below, the delay ends at 50). *)
Theorem delay_round_trips g :
  0 <= delay g <= GoInt.max_int ->
  decreaseDelay (increaseDelay g) = g /\
  (increaseDelay (decreaseDelay g) = g <-> 50 <= delay g) /\
  (delay g < 50 -> delay (increaseDelay (decreaseDelay g)) = 50).
Proof.
  intros Hd. split; [|split].
  - unfold decreaseDelay, increaseDelay. cbn [delay with_delay].
    rewrite with_delay_twice. unfold GoInt.sub, GoInt.add.
    replace (GoInt.wrap (delay g + 50) - 50) with (GoInt.wrap (delay g + 50) + -50) by lia.
    rewrite wrap_wrap_add. replace (delay g + 50 + -50) with (delay g) by lia.
    rewrite wrap_id by int_range.
    destruct (Z.ltb_spec (delay g) 0); [lia|]. apply with_delay_id.
  - unfold decreaseDelay, increaseDelay. cbn [delay with_delay].
    rewrite with_delay_twice. rewrite (sub_id (delay g)) by int_range.
    destruct (Z.ltb_spec (delay g - 50) 0).
    + rewrite add_id by int_range. split; [|lia].
      intros E. apply (f_equal delay) in E. cbn [delay with_delay] in E. lia.
    + rewrite add_id by int_range. split; [lia|]. intros _.
      replace (delay g - 50 + 50) with (delay g) by lia. apply with_delay_id.
  - intros Hlt. unfold decreaseDelay, increaseDelay. cbn [delay with_delay].
    rewrite (sub_id (delay g)) by int_range.
    destruct (Z.ltb_spec (delay g - 50) 0); [|lia]. by rewrite add_id by int_range.
Qed.

Lemma delay_round_trips_witness :
  0 <= delay (NewGame 14 4) <= GoInt.max_int /\
  decreaseDelay (increaseDelay (NewGame 14 4)) = NewGame 14 4 /\
  (increaseDelay (decreaseDelay (NewGame 14 4)) = NewGame 14 4
   <-> 50 <= delay (NewGame 14 4)) /\
  (delay (NewGame 14 4) < 50 ->
   delay (increaseDelay (decreaseDelay (NewGame 14 4))) = 50).
Proof.
  assert (0 <= delay (NewGame 14 4) <= GoInt.max_int) as Hd by (by vm_compute).
  split; [exact Hd|]. exact (delay_round_trips (NewGame 14 4) Hd).
Defined.

Lemma adjusts_down n : forall g,
  0 <= delay g <= GoInt.max_int ->
  delay (foldl adjust g (replicate n DelayDown)) = Z.max 0 (delay g - 50 * Z.of_nat n).
Proof.
  induction n as [| n IH]; intros g Hd; cbn [replicate foldl].
  - lia.
  - pose proof (decreaseDelay_delay g ltac:(lia) ltac:(lia)) as E.
    cbn [adjust]. rewrite IH by lia. rewrite E. lia.
Qed.

Lemma adjusts_up n : forall g,
  0 <= delay g -> delay g + 50 * Z.of_nat n <= GoInt.max_int ->
  delay (foldl adjust g (replicate n DelayUp)) = delay g + 50 * Z.of_nat n.
Proof.
  induction n as [| n IH]; intros g Hd Hmax; cbn [replicate foldl].
  - lia.
  - pose proof (increaseDelay_delay g ltac:(lia) ltac:(lia)) as E.
    cbn [adjust]. rewrite IH by lia. rewrite E. lia.
Qed.

(** X17: [n] presses in a row.  From a non-negative delay [d], [n]
    speed-ups leave [max 0 (d - 50 n)], so the delay is 0 from the
    [d/50]-th press on, and [n] slow-downs leave [d + 50 n] as long as
    that fits 64 bits. *)
Theorem delay_after_n_presses g n :
  0 <= delay g <= GoInt.max_int ->
  delay (foldl adjust g (replicate n DelayDown)) = Z.max 0 (delay g - 50 * Z.of_nat n) /\
  (delay g <= 50 * Z.of_nat n -> delay (foldl adjust g (replicate n DelayDown)) = 0) /\
  (delay g + 50 * Z.of_nat n <= GoInt.max_int ->
   delay (foldl adjust g (replicate n DelayUp)) = delay g + 50 * Z.of_nat n).
Proof.
  intros Hd. split; [by apply adjusts_down|]. split.
  - intros Hn. rewrite adjusts_down by done. lia.
  - intros Hmax. apply adjusts_up; lia.
Qed.

Lemma delay_after_n_presses_witness :
  0 <= delay (NewGame 14 4) <= GoInt.max_int /\
  delay (foldl adjust (NewGame 14 4) (replicate 12 DelayDown))
  = Z.max 0 (delay (NewGame 14 4) - 50 * Z.of_nat 12) /\
  (delay (NewGame 14 4) <= 50 * Z.of_nat 12 ->
   delay (foldl adjust (NewGame 14 4) (replicate 12 DelayDown)) = 0) /\
  (delay (NewGame 14 4) + 50 * Z.of_nat 12 <= GoInt.max_int ->
   delay (foldl adjust (NewGame 14 4) (replicate 12 DelayUp))
   = delay (NewGame 14 4) + 50 * Z.of_nat 12).
Proof.
  assert (0 <= delay (NewGame 14 4) <= GoInt.max_int) as Hd by (by vm_compute).
  split; [exact Hd|]. exact (delay_after_n_presses (NewGame 14 4) 12 Hd).
Defined.

(** X18: [increaseDelay] has no upper bound: from a delay within 50 of
    the largest 64-bit value the sum wraps around and the delay becomes
    negative. *)
Theorem increaseDelay_wraps g :
  GoInt.max_int - 50 < delay g <= GoInt.max_int ->
  delay (increaseDelay g) = delay g + 50 - 2 ^ 64 /\ delay (increaseDelay g) < 0.
Proof.
  intros Hd. cbn [increaseDelay with_delay delay]. unfold GoInt.add, GoInt.wrap.
  assert ((delay g + 50 + 2 ^ 63) mod 2 ^ 64 = delay g + 50 + 2 ^ 63 - 2 ^ 64) as ->.
  { symmetry. apply (Z.mod_unique (delay g + 50 + 2 ^ 63) (2 ^ 64) 1); int_range. }
  int_range.
Qed.

Lemma increaseDelay_wraps_witness :
  GoInt.max_int - 50 < delay (with_delay (NewGame 14 4) GoInt.max_int) <= GoInt.max_int /\
  delay (increaseDelay (with_delay (NewGame 14 4) GoInt.max_int))
  = delay (with_delay (NewGame 14 4) GoInt.max_int) + 50 - 2 ^ 64 /\
  delay (increaseDelay (with_delay (NewGame 14 4) GoInt.max_int)) < 0.
Proof.
  assert (GoInt.max_int - 50 < delay (with_delay (NewGame 14 4) GoInt.max_int)
          <= GoInt.max_int) as Hd by (by vm_compute).
  split; [exact Hd|]. exact (increaseDelay_wraps _ Hd).
Defined.

(** ** Resizing, in general *)

Lemma elem_of_resize_cell_draw g y x c :
  c ∈ resize_cell_draw g y x <->
  cell g x y = GoByte.one /\ c = SetContent (GoInt.add x (stateWidth g)) y "X"%char.
Proof.
  unfold resize_cell_draw, draw_call.
  destruct (GoByte.eqb (cell g x y) GoByte.one) eqn:E.
  - apply byte_eqb_eq in E. rewrite list_elem_of_singleton. tauto.
  - apply byte_eqb_neq in E. rewrite elem_of_nil. tauto.
Qed.

Lemma elem_of_resize_draws g w h c :
  c ∈ resize_draws g w h <->
  exists x y, ((0 <= y < h /\ y < height g) /\ 0 <= x <= w /\ x <= Z.max (width g) 0) /\
              cell g x y = GoByte.one /\
              c = SetContent (GoInt.add x (stateWidth g)) y "X"%char.
Proof.
  unfold resize_draws. rewrite elem_of_flat_map. split.
  - intros (y & Hy & Hc). apply elem_of_flat_map in Hc as (x & Hx & Hc).
    apply elem_of_copied_rows in Hy. apply elem_of_copied_cols in Hx.
    apply elem_of_resize_cell_draw in Hc. exists x, y. split; [lia | exact Hc].
  - intros (x & y & [Hy Hx] & Hc). exists y. split; [apply elem_of_copied_rows; lia|].
    apply elem_of_flat_map. exists x. split; [apply elem_of_copied_cols; lia|].
    by apply elem_of_resize_cell_draw.
Qed.

Lemma resize_field_rows_exact g w h a b c s t n k :
  rows_exact (mkGame a h b c (resize_field g w h) s t n k).
Proof.
  intros y. cbn [field height]. rewrite resize_field_lookup.
  case_decide as Hd.
  - split; [done | eauto].
  - split; [by intros [? ?] | done].
Qed.

(** X19: [resize] never panics and always pauses the game.  Generation,
    delay, stop flag and margin stay as they are, the new field has
    exactly the rows [0 .. h-1], and the screen is cleared first. *)
Theorem resize_pauses g w h :
  exists g' calls, resize g w h = Some g' /\
    evolution g' = false /\
    (generation g' = generation g /\ delay g' = delay g /\ stop g' = stop g /\
     stateWidth g' = stateWidth g) /\
    (width g' = GoInt.sub w (stateWidth g) /\ height g' = h /\ rows_exact g') /\
    screen g' = screen g ++ Fill :: calls.
Proof.
  do 2 eexists. split; [apply resize_eq|]. split; [done|]. split; [done|].
  split; [|reflexivity]. split; [done|]. split; [done|].
  apply resize_field_rows_exact.
Qed.

(** X20: after clearing the screen [resize] redraws exactly the cells
    it has copied whose value is 1, each with an [X]: the cells of the
    rows below both heights and of the columns [0 .. min w' width]
    (where [w'] is the new width), bounds included. *)
Theorem resize_redraws_live_cells g w h :
  0 <= width g ->
  let w' := GoInt.sub w (stateWidth g) in
  exists g' calls, resize g w h = Some g' /\ screen g' = screen g ++ Fill :: calls /\
    forall c, c ∈ calls <->
      exists x y, (0 <= y < Z.min h (height g) /\ 0 <= x <= Z.min w' (width g)) /\
                  cell g x y = GoByte.one /\
                  c = SetContent (GoInt.add x (stateWidth g)) y "X"%char.
Proof.
  intros Hw w'. do 2 eexists. split; [apply resize_eq|]. split; [reflexivity|].
  intros c. fold w'. rewrite elem_of_resize_draws.
  split; intros (x & y & Hr & Hc); exists x, y; (split; [lia | exact Hc]).
Qed.

Lemma resize_redraws_live_cells_witness :
  0 <= width corner /\
  exists g' calls, resize corner 16 6 = Some g' /\
    screen g' = screen corner ++ Fill :: calls /\
    forall c, c ∈ calls <->
      exists x y, (0 <= y < Z.min 6 (height corner) /\
                   0 <= x <= Z.min (GoInt.sub 16 (stateWidth corner)) (width corner)) /\
                  cell corner x y = GoByte.one /\
                  c = SetContent (GoInt.add x (stateWidth corner)) y "X"%char.
Proof.
  assert (0 <= width corner) as Hw by (by vm_compute).
  split; [exact Hw|]. exact (resize_redraws_live_cells corner 16 6 Hw).
Defined.

(** X21: whatever the field holds outside the grid, [resize] keeps every
    cell that lies in the old and in the new grid, and every cell of the
    new grid beyond the old height or beyond column [width] is dead;
    only the column [width] of the old field can bring something else
    in. *)
Theorem resize_keeps_the_overlap g w h :
  0 <= width g ->
  exists g', resize g w h = Some g' /\
    forall x y, in_grid g' x y ->
      (x < width g -> y < height g -> cell g' x y = cell g x y) /\
      (width g < x \/ height g <= y -> cell g' x y = GoByte.zero) /\
      (x = width g -> y < height g -> cell g' x y = cell g (width g) y).
Proof.
  intros Hw. destruct (resize g w h) as [g'|] eqn:E; [|by rewrite resize_eq in E].
  exists g'. split; [done|]. intros x y Hxy.
  rewrite (resize_cells g w h g' x y E Hw Hxy).
  split; [|split].
  - intros Hx Hy. by rewrite decide_True by lia.
  - intros Hout. by rewrite decide_False by lia.
  - intros -> Hy. by rewrite decide_True by lia.
Qed.

Lemma resize_keeps_the_overlap_witness :
  0 <= width column3_ticked /\
  exists g', resize column3_ticked 16 4 = Some g' /\
    forall x y, in_grid g' x y ->
      (x < width column3_ticked -> y < height column3_ticked ->
       cell g' x y = cell column3_ticked x y) /\
      (width column3_ticked < x \/ height column3_ticked <= y ->
       cell g' x y = GoByte.zero) /\
      (x = width column3_ticked -> y < height column3_ticked ->
       cell g' x y = cell column3_ticked (width column3_ticked) y).
Proof.
  assert (0 <= width column3_ticked) as Hw by (by vm_compute).
  split; [exact Hw|]. exact (resize_keeps_the_overlap column3_ticked 16 4 Hw).
Defined.

(** X22: on a field with no entry outside the grid, [resize] keeps the
    cells of the overlap of the old and the new grid and every other
    cell of the new grid is dead. *)
Theorem resize_of_a_clean_field g w h :
  no_stray g -> 0 <= width g ->
  exists g', resize g w h = Some g' /\
    forall x y, in_grid g' x y ->
      cell g' x y = if decide (x < width g /\ y < height g) then cell g x y
                    else GoByte.zero.
Proof.
  intros Hclean Hw. destruct (resize g w h) as [g'|] eqn:E; [|by rewrite resize_eq in E].
  exists g'. split; [done|]. intros x y Hxy.
  exact (resize_cells_clean g w h g' x y E Hw Hclean Hxy).
Qed.

Lemma corner_no_stray : no_stray corner.
Proof.
  intros y row x Hrow Hx. unfold in_grid.
  change (width corner) with 4. change (height corner) with 4.
  assert (0 <= y < 4) as Hy.
  { assert (rows_exact corner) as Hr.
    { assert (run (NewGame 14 4) [OpReverseCell 3 3] = Some corner) as E
        by (vm_compute; reflexivity).
      by destruct (run_reachable _ _ _ E (NewGame_rows_exact 14 4) (NewGame_binary 14 4)). }
    apply (Hr y). eauto. }
  assert (y = 0 \/ y = 1 \/ y = 2 \/ y = 3) as Hys by lia.
  assert (row = ∅ \/ row = {[3 := x01]}) as Hrows.
  { destruct Hys as [-> | [-> | [-> | ->]]]; vm_compute in Hrow;
      injection Hrow as <-; [left | left | left | right]; by vm_compute. }
  destruct Hrows as [-> | ->].
  - rewrite lookup_empty in Hx. by destruct Hx.
  - destruct (decide (x = 3)) as [-> | Hne]; [lia|].
    rewrite lookup_singleton_ne in Hx by done. by destruct Hx.
Defined.

Lemma resize_of_a_clean_field_witness :
  (no_stray corner /\ 0 <= width corner) /\
  exists g', resize corner 16 6 = Some g' /\
    forall x y, in_grid g' x y ->
      cell g' x y = if decide (x < width corner /\ y < height corner)
                    then cell corner x y else GoByte.zero.
Proof.
  assert (0 <= width corner) as Hw by (by vm_compute).
  split; [exact (conj corner_no_stray Hw)|].
  exact (resize_of_a_clean_field corner 16 6 corner_no_stray Hw).
Defined.

(** X23: a resize to a width not above the old one stores the old column
    of that index under the new width: with at least one common row, the
    first row of the new field holds an entry at column [width], outside
    the new grid. *)
Theorem resize_stores_column_width g w h :
  0 <= GoInt.sub w (stateWidth g) <= width g -> 0 < h -> 0 < height g ->
  exists g', resize g w h = Some g' /\
    (exists row, field g' !! 0 = Some row /\
                 row !! width g' = Some (cell g (width g') 0)) /\
    ~ no_stray g'.
Proof.
  intros Hw Hh Hh'. eexists. split; [apply resize_eq|]. cbn [field width].
  set (w' := GoInt.sub w (stateWidth g)) in *.
  assert (resize_field g w' h !! 0
          = Some (copy_row g 0 (upto (width g) (seqZ 0 (w' + 1))) ∅)) as Hrow.
  { rewrite resize_field_lookup. by rewrite !decide_True by lia. }
  assert (copy_row g 0 (upto (width g) (seqZ 0 (w' + 1))) ∅ !! w' = Some (cell g w' 0))
    as Hcell.
  { rewrite copy_row_lookup. by rewrite decide_True by lia. }
  split; [eauto|].
  intros Hstray. destruct (Hstray 0 _ w' Hrow) as [Hx _]; [by rewrite Hcell|].
  cbn [width] in Hx. lia.
Qed.

Lemma resize_stores_column_width_witness :
  (0 <= GoInt.sub 12 (stateWidth corner) <= width corner /\ 0 < 4 /\ 0 < height corner) /\
  exists g', resize corner 12 4 = Some g' /\
    (exists row, field g' !! 0 = Some row /\
                 row !! width g' = Some (cell corner (width g') 0)) /\
    ~ no_stray g'.
Proof.
  assert (0 <= GoInt.sub 12 (stateWidth corner) <= width corner) as Hw by (by vm_compute).
  assert (0 < 4) as Hh by lia.
  assert (0 < height corner) as Hh' by (by vm_compute).
  split; [exact (conj Hw (conj Hh Hh'))|].
  exact (resize_stores_column_width corner 12 4 Hw Hh Hh').
Defined.

(** ** The timer and the resize event *)

(** X24: one expiry of the timer.  While the game is paused nothing
    changes.  While it plays, the expiry never panics, computes the next
    generation of the grid, adds one to the counter, and ends by printing
    the status with the new generation and showing the screen. *)
Theorem timer_expiry g :
  exists g', timerTick g = Some g' /\
    (evolution g = false -> g' = g) /\
    (evolution g = true ->
     generation g' = GoInt.add (generation g) 1 /\
     (forall x y, in_grid g x y -> cell g' x y = nextCellState g x y) /\
     evolution g' = true /\
     exists calls,
       screen g' = screen g ++ calls ++
                   [EmitStr 0 0 (TxtSize (width g) (height g));
                    EmitStr 0 1 (TxtState true);
                    EmitStr 0 2 (TxtGen (GoInt.add (generation g) 1));
                    Show]).
Proof.
  unfold timerTick. destruct (evolution g) eqn:Ev.
  - rewrite tick_eq, drawState_eq. eexists. split; [reflexivity|].
    split; [done|]. intros _. split; [done|]. split; [|split; [done|]].
    + intros x y [Hx Hy].
      change (cell (call (with_screen (mkGame ?a ?b ?e ?d ?f ?s ?t ?n ?k) ?s') ?c) x y)
        with (field_get f y x).
      rewrite tick_field_get. by rewrite decide_True by lia.
    + exists (tick_draws g ++ blank_calls g).
      unfold call, status_calls, blank_calls.
      cbn [with_screen width height evolution delay field screen stop generation
           stateWidth].
      rewrite <- !app_assoc, Ev. reflexivity.
  - exists g. split; [done|]. split; [done|]. done.
Qed.

(** X25: a resize event leaves the game paused at its generation, with
    the size taken from the terminal; the handler clears the screen,
    redraws, prints the status with the mode [Pause] and syncs; a timer
    expiry that follows changes nothing. *)
Theorem resize_event_pauses g w h :
  exists g' calls, handleEvent g (EventResize w h) = Some (g', Continue) /\
    evolution g' = false /\ generation g' = generation g /\
    width g' = GoInt.sub w (stateWidth g) /\ height g' = h /\
    screen g' = screen g ++ Fill :: calls ++
                [EmitStr 0 0 (TxtSize (GoInt.sub w (stateWidth g)) h);
                 EmitStr 0 1 (TxtState false);
                 EmitStr 0 2 (TxtGen (generation g));
                 Sync] /\
    timerTick g' = Some g'.
Proof.
  cbn [handleEvent]. rewrite resize_eq. cbv zeta. rewrite drawState_eq.
  eexists. exists (resize_draws g (GoInt.sub w (stateWidth g)) h ++ blank_calls g).
  split; [reflexivity|]. do 4 (split; [reflexivity|]). split; [|reflexivity].
  unfold call, status_calls, blank_calls.
  cbn [with_screen width height evolution delay field screen stop generation stateWidth].
  rewrite <- ?app_assoc. cbn [app]. by rewrite <- ?app_assoc.
Qed.

(** ** [emitStr] *)

Lemma emitStr_fold RuneWidth y str : forall calls x,
  Forall (fun c => RuneWidth c = 1) str ->
  GoInt.min_int <= x -> x + Z.of_nat (length str) <= GoInt.max_int ->
  foldl (emitStr_rune RuneWidth y) (calls, x) str
  = (calls ++ imap (fun i c => mkCellWrite (x + Z.of_nat i) y c []) str,
     x + Z.of_nat (length str)).
Proof.
  induction str as [| c str IH]; intros calls x Hw Hx Hmax; cbn [foldl imap length].
  - by rewrite app_nil_r, Z.add_0_r.
  - apply Forall_cons in Hw as [Hc Hw]. cbn [length] in Hmax.
    unfold emitStr_rune at 2. rewrite Hc. cbn [Z.eqb Pos.eqb].
    rewrite add_id by int_range. rewrite IH by (done || lia).
    rewrite <- app_assoc. cbn [app]. rewrite Z.add_0_r. f_equal; [|lia].
    f_equal. f_equal. apply imap_ext. intros i c' _. cbn. f_equal. lia.
Qed.

(** X26: for a text of runes of width 1 (such as the status lines),
    [emitStr] puts the [i]-th rune unchanged, without combining runes, at
    column [x + i] of row [y]: one call for each rune, left to right, no
    cell written twice. *)
Theorem emitStr_narrow_text RuneWidth x y str :
  Forall (fun c => RuneWidth c = 1) str ->
  GoInt.min_int <= x -> x + Z.of_nat (length str) <= GoInt.max_int ->
  emitStr RuneWidth x y str = imap (fun i c => mkCellWrite (x + Z.of_nat i) y c []) str /\
  length (emitStr RuneWidth x y str) = length str /\
  NoDup (cw_x <$> emitStr RuneWidth x y str).
Proof.
  intros Hw Hx Hmax.
  assert (emitStr RuneWidth x y str
          = imap (fun i c => mkCellWrite (x + Z.of_nat i) y c []) str) as E.
  { unfold emitStr. by rewrite (emitStr_fold RuneWidth y str [] x Hw Hx Hmax). }
  rewrite E. split; [done|]. split; [by rewrite length_imap|].
  rewrite fmap_imap.
  rewrite (imap_ext _ (fun i _ => x + Z.of_nat i)) by done.
  rewrite (imap_seq_0 str (fun i => x + Z.of_nat i)).
  apply NoDup_fmap_2; [intros i j Hij; lia | apply NoDup_seq].
Qed.

Lemma emitStr_narrow_text_witness :
  (Forall (fun c => (fun _ : Z => 1) c = 1) [80; 108; 97; 121] /\
   GoInt.min_int <= 0 /\ 0 + Z.of_nat (length [80; 108; 97; 121]) <= GoInt.max_int) /\
  emitStr (fun _ => 1) 0 1 [80; 108; 97; 121]
  = imap (fun i c => mkCellWrite (0 + Z.of_nat i) 1 c []) [80; 108; 97; 121] /\
  length (emitStr (fun _ => 1) 0 1 [80; 108; 97; 121]) = length [80; 108; 97; 121] /\
  NoDup (cw_x <$> emitStr (fun _ => 1) 0 1 [80; 108; 97; 121]).
Proof.
  assert (Forall (fun c => (fun _ : Z => 1) c = 1) [80; 108; 97; 121]) as Hw
    by (repeat constructor).
  assert (GoInt.min_int <= 0) as Hx by (by vm_compute).
  assert (0 + Z.of_nat (length [80; 108; 97; 121]) <= GoInt.max_int) as Hmax
    by (by vm_compute).
  split; [exact (conj Hw (conj Hx Hmax))|].
  exact (emitStr_narrow_text (fun _ => 1) 0 1 [80; 108; 97; 121] Hw Hx Hmax).
Defined.

Lemma emitStr_emit_from RuneWidth y str : forall calls x,
  fst (foldl (emitStr_rune RuneWidth y) (calls, x) str)
  = calls ++ emit_from RuneWidth x y str.
Proof.
  induction str as [| c str IH]; intros calls x; cbn [foldl emit_from].
  - by rewrite app_nil_r.
  - unfold emitStr_rune at 2, rune_cell, rune_step.
    destruct (RuneWidth c =? 0); rewrite IH, <- app_assoc; reflexivity.
Qed.

Lemma emit_from_cells RuneWidth y str : forall x,
  (fun cw => (cw_y cw, cw_rune cw, cw_comb cw)) <$> emit_from RuneWidth x y str
  = (fun c => (y, fst (rune_cell RuneWidth c), snd (rune_cell RuneWidth c))) <$> str.
Proof.
  induction str as [| c str IH]; intros x; [done|].
  cbn [emit_from]. rewrite !fmap_cons, IH. reflexivity.
Qed.

Lemma emit_from_columns RuneWidth y str : forall x i cw cw' c,
  emit_from RuneWidth x y str !! i = Some cw ->
  emit_from RuneWidth x y str !! S i = Some cw' ->
  str !! i = Some c ->
  cw_x cw' = GoInt.add (cw_x cw) (rune_step RuneWidth c).
Proof.
  induction str as [| c0 str IH]; intros x i cw cw' c; [done|].
  cbn [emit_from]. destruct i as [| i].
  - cbn. intros [= <-] Hnext [= <-]. destruct str as [| c1 str]; [done|].
    cbn [emit_from] in Hnext. cbn in Hnext. by injection Hnext as <-.
  - cbn. apply IH.
Qed.

(** X27: whatever the widths, the calls of [emitStr] follow the text
    rune by rune, in order, all on row [y]: a rune of width 0 goes as the
    single combining rune of a space (never as the rune of a cell), every
    other rune is written as it is, without combining runes.  The first
    call is at column [x], and each next one is further right by the
    width of the rune just written, by 1 after a rune of width 0 (in 64
    bits). *)
Theorem emitStr_calls RuneWidth x y str :
  (fun cw => (cw_y cw, cw_rune cw, cw_comb cw)) <$> emitStr RuneWidth x y str
  = (fun c => if RuneWidth c =? 0 then (y, 32, [c]) else (y, c, [])) <$> str /\
  length (emitStr RuneWidth x y str) = length str /\
  (forall cw, emitStr RuneWidth x y str !! 0%nat = Some cw -> cw_x cw = x) /\
  (forall i cw cw' c,
     emitStr RuneWidth x y str !! i = Some cw ->
     emitStr RuneWidth x y str !! S i = Some cw' ->
     str !! i = Some c ->
     cw_x cw' = GoInt.add (cw_x cw) (if RuneWidth c =? 0 then 1 else RuneWidth c)).
Proof.
  assert (emitStr RuneWidth x y str = emit_from RuneWidth x y str) as E.
  { unfold emitStr. by rewrite emitStr_emit_from. }
  rewrite E.
  assert ((fun cw => (cw_y cw, cw_rune cw, cw_comb cw)) <$> emit_from RuneWidth x y str
          = (fun c => if RuneWidth c =? 0 then (y, 32, [c]) else (y, c, [])) <$> str)
    as Hcells.
  { rewrite emit_from_cells. apply list_fmap_ext. intros i c _.
    unfold rune_cell. by destruct (RuneWidth c =? 0). }
  split; [exact Hcells|]. split; [|split].
  - apply (f_equal length) in Hcells. by rewrite !length_fmap in Hcells.
  - destruct str as [| c str]; [done|]. cbn. by intros cw [= <-].
  - intros i cw cw' c H1 H2 H3.
    apply (emit_from_columns RuneWidth y str x i cw cw' c H1 H2 H3).
Qed.
